(** * cs50ai: tic-tac-toe, knights and knaves, heredity, pagerank

    A shallow embedding of the four Python programs of the repository and
    the properties their specification states about them.

    Conventions of the embedding.
    - A Python [dict] is a [gmap]; a loop [for k in d] runs over
      [map_to_list d].  A Python [set] of names is a [gset string].
    - Python numbers are exact rationals ([Q]); equality of numbers is
      [Qeq] (written [==]).  The decimal constants of the source are the
      rationals they denote.
    - A function that can raise returns [exn + A]: [inl e] is the
      exception that escapes, [inr v] the value returned. *)

From Stdlib Require Import QArith Qabs Lqa Lia.
From stdpp Require Import gmap strings list fin_maps.

#[local] Set Warnings "-register-all".

(** ** Exceptions and the error monad shared by the four programs *)

Inductive exn : Type :=
  | TypeError
  | IndexError
  | KeyError
  | ZeroDivisionError
  | GameOver
  | InvalidAction
  | InvariantViolation. (* named by the specification only: no code path builds it *)

Definition bind {A B : Type} (m : exn + A) (k : A -> exn + B) : exn + B :=
  match m with
  | inl e => inl e
  | inr a => k a
  end.

Notation "'let!' x ':=' m 'in' k" := (bind m (fun x => k))
  (at level 10, x name, m at level 100, k at level 200, only parsing).

(** Python's [x / y]: a zero divisor raises ZeroDivisionError. *)
Definition div (x y : Q) : exn + Q :=
  if Qeq_bool y 0 then inl ZeroDivisionError else inr (x / y)%Q.

(** ** 0_search/tictactoe/tictactoe.py *)

Module TicTacToe.

Inductive mark : Type := X | O.

(** A cell holds [X], [O] or [EMPTY] (Python's [None]). *)
Definition cell : Type := option mark.
Definition EMPTY : cell := None.

Definition cell_eqb (a b : cell) : bool :=
  match a, b with
  | None, None => true
  | Some X, Some X => true
  | Some O, Some O => true
  | _, _ => false
  end.

(** A board is a list of rows, as in the source. *)
Definition board : Type := list (list cell).

Definition initial_state : board :=
  [[EMPTY; EMPTY; EMPTY];
   [EMPTY; EMPTY; EMPTY];
   [EMPTY; EMPTY; EMPTY]].

(** *** Python list subscripts *)

(** [l[i]] with an integer subscript: negative subscripts count from the
    end, anything out of range raises IndexError. *)
Definition getitem {A : Type} (l : list A) (i : Z) : exn + A :=
  let n := Z.of_nat (length l) in
  let i' := if (i <? 0)%Z then (i + n)%Z else i in
  if ((i' <? 0) || (n <=? i'))%Z then inl IndexError
  else match nth_error l (Z.to_nat i') with
       | Some x => inr x
       | None => inl IndexError
       end.

(** [l[i, j]]: the subscript is the tuple [(i, j)].  A list accepts
    integers and slices only and raises TypeError for a tuple, whatever
    the list holds. *)
Definition getitem_tuple {A B : Type} (l : list A) (ij : Z * Z) : exn + B :=
  inl TypeError.

(** [l[i, j] = v]: the same check, before anything is stored. *)
Definition setitem_tuple {A V : Type} (l : list A) (ij : Z * Z) (v : V)
  : exn + list A :=
  inl TypeError.

(** *** Exception classes *)

Inductive exn_class : Type := GameOver_class | InvalidAction_class.

(** Both classes declare [__init__(self, expression, message)]. *)
Definition init_arity (c : exn_class) : nat :=
  match c with
  | GameOver_class => 2
  | InvalidAction_class => 2
  end.

Definition instance_of (c : exn_class) : exn :=
  match c with
  | GameOver_class => GameOver
  | InvalidAction_class => InvalidAction
  end.

(** Calling a class with [nargs] positional arguments: a call that does
    not supply what [__init__] requires raises TypeError. *)
Definition instantiate (c : exn_class) (nargs : nat) : exn :=
  if Nat.eqb nargs (init_arity c) then instance_of c else TypeError.

(** [raise C] with a class [C] instantiates it with no argument and
    raises the outcome. *)
Definition raise_class {A : Type} (c : exn_class) : exn + A :=
  inl (instantiate c 0).

(** *** The game *)

Fixpoint row_has_empty (row : list cell) : bool :=
  match row with
  | [] => false
  | c :: row' => if cell_eqb c EMPTY then true else row_has_empty row'
  end.

(** [terminal]: the first EMPTY cell met returns False; True after the
    loops. *)
Fixpoint terminal (b : board) : bool :=
  match b with
  | [] => true
  | row :: b' => if row_has_empty row then false else terminal b'
  end.

(** The counting loop of [player]: the pair is [(numX, numO)]. *)
Definition count_cell (acc : nat * nat) (c : cell) : nat * nat :=
  let '(numX, numO) := acc in
  if cell_eqb c (Some X) then (S numX, numO)
  else if cell_eqb c (Some O) then (numX, S numO)
  else (numX, numO).

Definition count_marks (b : board) : nat * nat :=
  fold_left (fun acc row => fold_left count_cell row acc) b (0, 0)%nat.

Definition player (b : board) : option mark :=
  let '(numX, numO) := count_marks b in
  if (numO <? numX)%nat then Some O
  else if negb (terminal b) && (numX =? numO)%nat then Some X
  else None.

(** [actions]: the pairs are added for i, j in range(3); the set is kept
    as the list of its elements. *)
Definition range3 : list Z := [0; 1; 2]%Z.

Fixpoint actions_row (b : board) (i : Z) (js : list Z) (acc : list (Z * Z))
  : exn + list (Z * Z) :=
  match js with
  | [] => inr acc
  | j :: js' =>
      let! row := getitem b i in
      let! c := getitem row j in
      actions_row b i js' (if cell_eqb c EMPTY then acc ++ [(i, j)] else acc)
  end.

Fixpoint actions_rows (b : board) (is_ : list Z) (acc : list (Z * Z))
  : exn + list (Z * Z) :=
  match is_ with
  | [] => inr acc
  | i :: is' =>
      let! acc' := actions_row b i range3 acc in
      actions_rows b is' acc'
  end.

Definition actions (b : board) : exn + list (Z * Z) :=
  actions_rows b range3 [].

Definition action_eqb (a a' : Z * Z) : bool :=
  (fst a =? fst a')%Z && (snd a =? snd a')%Z.

Definition action_in (a : Z * Z) (s : list (Z * Z)) : bool :=
  existsb (action_eqb a) s.

(** [result]: [copy.deepcopy] of an immutable value is the value. *)
Definition result (b : board) (action : Z * Z) : exn + board :=
  if terminal b then raise_class GameOver_class
  else
    let! acts := actions b in
    if negb (action_in action acts) then raise_class InvalidAction_class
    else
      let p := player b in
      let result_board := b in
      let '(i, j) := action in
      setitem_tuple result_board (i, j) p.

(** One branch of the [if]/[elif] chain of [winner]:
    [board[a] == board[b] == board[c]], then [board[a] == X]. *)
Definition winner_line (b : board) (p q r : Z * Z)
  (otherwise : exn + option mark) : exn + option mark :=
  let! x := (getitem_tuple b p : exn + cell) in
  let! y := (getitem_tuple b q : exn + cell) in
  if negb (cell_eqb x y) then otherwise
  else
    let! z := (getitem_tuple b r : exn + cell) in
    if negb (cell_eqb y z) then otherwise
    else
      let! w := (getitem_tuple b p : exn + cell) in
      if cell_eqb w (Some X) then inr (Some X) else inr (Some O).

Definition winner (b : board) : exn + option mark :=
  if negb (terminal b) then inr None
  else
    (winner_line b (0, 0) (0, 1) (0, 2)
    (winner_line b (1, 0) (1, 1) (1, 2)
    (winner_line b (2, 0) (2, 1) (2, 2)
    (winner_line b (0, 0) (1, 0) (2, 0)
    (winner_line b (0, 1) (1, 1) (2, 1)
    (winner_line b (0, 2) (1, 2) (2, 2)
    (winner_line b (0, 0) (1, 1) (2, 2)
    (winner_line b (0, 2) (1, 1) (2, 0)
    (inr None)))))))))%Z.

Definition utility (b : board) : exn + Z :=
  let! w := winner b in
  match w with
  | Some X => inr 1%Z
  | Some O => inr (-1)%Z
  | None => inr 0%Z
  end.

(** *** What the specification asks of [terminal] and [result] *)

(** The cell at row [i], column [j] of a 3x3 board ([EMPTY] outside). *)
Definition cell_at (b : board) (i j : nat) : cell :=
  match nth_error b i with
  | Some row => match nth_error row j with
                | Some c => c
                | None => EMPTY
                end
  | None => EMPTY
  end.

Definition line_of (m : mark) (b : board) (p q r : nat * nat) : bool :=
  cell_eqb (cell_at b (fst p) (snd p)) (Some m)
  && cell_eqb (cell_at b (fst q) (snd q)) (Some m)
  && cell_eqb (cell_at b (fst r) (snd r)) (Some m).

Definition lines : list ((nat * nat) * (nat * nat) * (nat * nat)) :=
  [((0, 0), (0, 1), (0, 2)); ((1, 0), (1, 1), (1, 2)); ((2, 0), (2, 1), (2, 2));
   ((0, 0), (1, 0), (2, 0)); ((0, 1), (1, 1), (2, 1)); ((0, 2), (1, 2), (2, 2));
   ((0, 0), (1, 1), (2, 2)); ((0, 2), (1, 1), (2, 0))]%nat.

(** Some player has a complete row, column or diagonal. *)
Definition has_line (b : board) : bool :=
  existsb (fun m => existsb (fun '(p, q, r) => line_of m b p q r) lines) [X; O].

(** No empty cell remains. *)
Definition full (b : board) : bool :=
  forallb (forallb (fun c => negb (cell_eqb c EMPTY))) b.

(** The specification's [terminal]: a winner, or no empty cell. *)
Definition terminal_spec (b : board) : bool := has_line b || full b.

(** A 3x3 board. *)
Definition board3 (b : board) : Prop :=
  length b = 3%nat /\ Forall (fun row => length row = 3%nat) b.

(** The board the specification's [result] returns: the input with the
    current player's mark at the action's cell. *)
Definition place (b : board) (i j : nat) (c : cell) : board :=
  match nth_error b i with
  | Some row => <[i := <[j := c]> row]> b
  | None => b
  end.

(** X has completed the top row after five moves. *)
Definition won_board : board :=
  [[Some X; Some X; Some X];
   [Some O; Some O; EMPTY];
   [EMPTY; EMPTY; EMPTY]].

(** A drawn, full board. *)
Definition full_board : board :=
  [[Some X; Some O; Some X];
   [Some X; Some O; Some O];
   [Some O; Some X; Some X]].

(** The actions [actions] adds while it scans row [i]: the pairs
    [(i, j)], j in range(3), whose cell is EMPTY. *)
Definition empty_in_row (i : Z) (row : list cell) : list (Z * Z) :=
  flat_map (fun j => match getitem row j with
                     | inr c => if cell_eqb c EMPTY then [(i, j)] else []
                     | inl _ => []
                     end)
           range3.

(** A board of two rows. *)
Definition short_board : board :=
  [[Some X; EMPTY; EMPTY];
   [EMPTY; Some O; EMPTY]].

End TicTacToe.

(** ** 1_knowledge/knights/puzzle.py *)

Module Knights.

(** Modelled from the spec: the sentence classes of logic.py, which
    puzzle.py imports and which is not among the sources.  A sentence is
    a tagged variant, one of Symbol, Not(S), And(S1 ... Sn), Or(S1 ... Sn),
    Implication(S, S), Biconditional(S, S); two symbols with the same
    name are equal. *)
Inductive Sentence : Type :=
  | Symbol (name : string)
  | Not (operand : Sentence)
  | And (conjuncts : list Sentence)
  | Or (disjuncts : list Sentence)
  | Implication (antecedent consequent : Sentence)
  | Biconditional (left right : Sentence).

Definition AKnight : Sentence := Symbol "A is a Knight".
Definition AKnave : Sentence := Symbol "A is a Knave".

Definition BKnight : Sentence := Symbol "B is a Knight".
Definition BKnave : Sentence := Symbol "B is a Knave".

Definition CKnight : Sentence := Symbol "C is a Knight".
Definition CKnave : Sentence := Symbol "C is a Knave".

(** Puzzle 2.  A says "We are the same kind."  B says "We are of
    different kinds." *)
Definition knowledge2 : Sentence :=
  And [
    (* Info from structure of problem *)
    Or [AKnight; AKnave];
    Implication AKnight (Not AKnave);
    Or [BKnight; BKnave];
    Implication BKnight (Not BKnave);
    (* Info from given statements *)
    Biconditional AKnight (Or [And [AKnight; BKnight];
                               And [AKnave; BKnave]]);
    Biconditional BKnight (Or [And [AKnight; BKnave];
                               And [AKnave; BKnight]])
  ].

(** A model gives every symbol a truth value. *)
Definition Model : Type := string -> bool.

(** Modelled from the spec: [evaluate] of logic.py.  Symbol s is
    model[s]; Not negates; And is the conjunction (true when empty); Or
    the disjunction (false when empty); Implication(a, b) is (not a) or
    b; Biconditional(a, b) is a = b. *)
Fixpoint evaluate (s : Sentence) (model : Model) : bool :=
  match s with
  | Symbol name => model name
  | Not operand => negb (evaluate operand model)
  | And conjuncts => forallb (fun c => evaluate c model) conjuncts
  | Or disjuncts => existsb (fun d => evaluate d model) disjuncts
  | Implication a b => negb (evaluate a model) || evaluate b model
  | Biconditional a b => Bool.eqb (evaluate a model) (evaluate b model)
  end.

(** Modelled from the spec: [symbols] of logic.py, the set of atoms of a
    sentence. *)
Fixpoint symbols (s : Sentence) : gset string :=
  match s with
  | Symbol name => {[ name ]}
  | Not operand => symbols operand
  | And conjuncts => ⋃ (map symbols conjuncts)
  | Or disjuncts => ⋃ (map symbols disjuncts)
  | Implication a b => symbols a ∪ symbols b
  | Biconditional a b => symbols a ∪ symbols b
  end.

(** The 2^|S| assignments over the symbols [syms]. *)
Definition assign (name : string) (v : bool) (model : Model) : Model :=
  fun n => if String.eqb n name then v else model n.

Fixpoint all_models (syms : list string) : list Model :=
  match syms with
  | [] => [fun _ => false]
  | name :: syms' =>
      flat_map (fun model => [assign name true model; assign name false model])
               (all_models syms')
  end.

(** Modelled from the spec: [model_check] of logic.py.  Let S be
    symbols(knowledge) with symbols(query); enumerate all assignments over
    S; every assignment that makes the knowledge true must make the query
    true. *)
Definition model_check (knowledge query : Sentence) : bool :=
  forallb (fun model => implb (evaluate knowledge model) (evaluate query model))
          (all_models (elements (symbols knowledge ∪ symbols query))).

(** Entailment as the glossary defines it: every model satisfying the
    knowledge also satisfies the query. *)
Definition entails (knowledge query : Sentence) : Prop :=
  forall model : Model,
    evaluate knowledge model = true -> evaluate query model = true.

(** The one model of Puzzle 2: A is a knave and B is a knight. *)
Definition model2 : Model :=
  fun n => String.eqb n "A is a Knave" || String.eqb n "B is a Knight".

(** Induction over sentences that reaches the operands of And and Or. *)
Section SentenceInduction.
Variable P : Sentence -> Prop.
Hypothesis on_symbol : forall name, P (Symbol name).
Hypothesis on_not : forall s, P s -> P (Not s).
Hypothesis on_and : forall l, Forall P l -> P (And l).
Hypothesis on_or : forall l, Forall P l -> P (Or l).
Hypothesis on_implication : forall a b, P a -> P b -> P (Implication a b).
Hypothesis on_biconditional : forall a b, P a -> P b -> P (Biconditional a b).

Fixpoint Sentence_nested_ind (s : Sentence) : P s :=
  let all :=
    fix all (l : list Sentence) : Forall P l :=
      match l with
      | [] => List.Forall_nil P
      | s' :: l' => List.Forall_cons P s' l' (Sentence_nested_ind s') (all l')
      end in
  match s with
  | Symbol name => on_symbol name
  | Not operand => on_not operand (Sentence_nested_ind operand)
  | And conjuncts => on_and conjuncts (all conjuncts)
  | Or disjuncts => on_or disjuncts (all disjuncts)
  | Implication a b =>
      on_implication a b (Sentence_nested_ind a) (Sentence_nested_ind b)
  | Biconditional a b =>
      on_biconditional a b (Sentence_nested_ind a) (Sentence_nested_ind b)
  end.
End SentenceInduction.

(** Puzzle 0.  A says "I am both a knight and a knave." *)
Definition knowledge0 : Sentence :=
  And [
    (* Info from structure of problem *)
    Or [AKnight; AKnave];
    Implication AKnight (Not AKnave);
    Implication AKnave (Not AKnight);
    (* Info from given statements *)
    Biconditional AKnight (And [AKnight; AKnave])
  ].

(** Puzzle 1.  A says "We are both knaves."  B says nothing. *)
Definition knowledge1 : Sentence :=
  And [
    (* Info from structure of problem *)
    Or [AKnight; AKnave];
    Implication AKnight (Not AKnave);
    Or [BKnight; BKnave];
    Implication BKnight (Not BKnave);
    (* Info from give statements *)
    Biconditional AKnight (And [AKnave; BKnave])
  ].

(** Puzzle 3.  A says either "I am a knight." or "I am a knave.", but you
    don't know which.  B says "A said 'I am a knave'."  B says "C is a
    knave."  C says "A is a knight." *)
Definition knowledge3 : Sentence :=
  And [
    (* Info from structure of problem *)
    Or [AKnight; AKnave];
    Implication AKnight (Not AKnave);
    Or [BKnight; BKnave];
    Implication BKnight (Not BKnave);
    Or [CKnight; CKnave];
    Implication CKnight (Not CKnave);
    (* Info from give statements *)
    Biconditional (Or [AKnight; AKnight])
                  (Or [AKnight; AKnave]);
    Biconditional BKnight (Biconditional AKnight AKnave);
    Biconditional BKnight CKnave;
    Biconditional CKnight AKnight
  ].

(** [knowledge.conjuncts]: the operands of an And (the four knowledge
    bases are Ands). *)
Definition conjuncts (s : Sentence) : list Sentence :=
  match s with
  | And l => l
  | _ => []
  end.

(** [main]: for every puzzle its name and what is printed under it, None
    for the line "Not yet implemented.", else the symbols for which
    [model_check] returns True, in the order of the list [symbols]. *)
Definition main : list (string * option (list Sentence)) :=
  let symbols := [AKnight; AKnave; BKnight; BKnave; CKnight; CKnave] in
  let puzzles := [("Puzzle 0", knowledge0); ("Puzzle 1", knowledge1);
                  ("Puzzle 2", knowledge2); ("Puzzle 3", knowledge3)] in
  map (fun '(puzzle, knowledge) =>
         (puzzle,
          if (length (conjuncts knowledge) =? 0)%nat then None
          else Some (List.filter (fun symbol => model_check knowledge symbol) symbols)))
      puzzles.

End Knights.

(** ** 2_uncertainty/heredity/heredity.py *)

Module Heredity.
Local Open Scope Q_scope.

(** *** The table PROBS *)

(** PROBS["gene"]: unconditional probabilities for having the gene. *)
Definition PROBS_gene (copies : nat) : Q :=
  match copies with
  | 2%nat => 0.01
  | 1%nat => 0.03
  | 0%nat => 0.96
  | _ => 0 (* no such key *)
  end.

(** PROBS["trait"]: probability of the trait given the copies of the
    gene. *)
Definition PROBS_trait (copies : nat) (has_trait : bool) : Q :=
  match copies with
  | 2%nat => if has_trait then 0.65 else 0.35
  | 1%nat => if has_trait then 0.56 else 0.44
  | 0%nat => if has_trait then 0.01 else 0.99
  | _ => 0 (* no such key *)
  end.

(** PROBS["mutation"]. *)
Definition PROBS_mutation : Q := 0.01.

(** *** People and probabilities *)

(** A row of the CSV file, as [load_data] stores it: [mother] and
    [father] are None when blank, [trait] is None when unknown. *)
Record Person : Type := {
  name : string;
  mother : option string;
  father : option string;
  trait : option bool
}.

(** probabilities[person]: the "gene" dictionary with keys 2, 1, 0 and the
    "trait" dictionary with keys True, False. *)
Record Distributions : Type := {
  gene_2 : Q;
  gene_1 : Q;
  gene_0 : Q;
  trait_True : Q;
  trait_False : Q
}.

Definition gene_at (d : Distributions) (copies : nat) : Q :=
  match copies with
  | 2%nat => gene_2 d
  | 1%nat => gene_1 d
  | _ => gene_0 d
  end.

Definition trait_at (d : Distributions) (has_trait : bool) : Q :=
  if has_trait then trait_True d else trait_False d.

Definition add_gene (d : Distributions) (copies : nat) (p : Q) : Distributions :=
  match copies with
  | 2%nat => {| gene_2 := gene_2 d + p; gene_1 := gene_1 d; gene_0 := gene_0 d;
                trait_True := trait_True d; trait_False := trait_False d |}
  | 1%nat => {| gene_2 := gene_2 d; gene_1 := gene_1 d + p; gene_0 := gene_0 d;
                trait_True := trait_True d; trait_False := trait_False d |}
  | _ => {| gene_2 := gene_2 d; gene_1 := gene_1 d; gene_0 := gene_0 d + p;
            trait_True := trait_True d; trait_False := trait_False d |}
  end.

Definition add_trait (d : Distributions) (has_trait : bool) (p : Q) : Distributions :=
  if has_trait
  then {| gene_2 := gene_2 d; gene_1 := gene_1 d; gene_0 := gene_0 d;
          trait_True := trait_True d + p; trait_False := trait_False d |}
  else {| gene_2 := gene_2 d; gene_1 := gene_1 d; gene_0 := gene_0 d;
          trait_True := trait_True d; trait_False := trait_False d + p |}.

Definition zero_distributions : Distributions :=
  {| gene_2 := 0; gene_1 := 0; gene_0 := 0; trait_True := 0; trait_False := 0 |}.

(** [x in s] where [x] is a name or None: None is in no set of names. *)
Definition is_in (x : option string) (s : gset string) : bool :=
  match x with
  | Some n => bool_decide (n ∈ s)
  | None => false
  end.

Definition is_None {A : Type} (x : option A) : bool :=
  match x with
  | None => true
  | Some _ => false
  end.

(** *** powerset *)

(** itertools.combinations(l, r): the r-length subsequences of [l], in
    lexicographic order of positions. *)
Fixpoint combinations {A : Type} (l : list A) (r : nat) : list (list A) :=
  match r, l with
  | 0%nat, _ => [[]]
  | S r', x :: l' => map (cons x) (combinations l' r') ++ combinations l' r
  | S _, [] => []
  end.

Definition powerset (s : gset string) : list (gset string) :=
  let s := elements s in
  map list_to_set (flat_map (combinations s) (seq 0 (length s + 1))).

(** *** joint_probability *)

(** The branch [person in one_gene], up to the trait factor. *)
Definition one_gene_probability (mom dad : option string)
    (one_gene two_genes : gset string) : Q :=
  if is_None mom && is_None dad then
    PROBS_gene 1
  else
    (* gene comes from mother and not father (p1) *)
    let p1 :=
      if is_in mom one_gene then 0.5
      else if is_in mom two_genes then 1 - PROBS_mutation
      else PROBS_mutation in
    let p1 :=
      if is_in dad one_gene then p1 * 0.5
      else if is_in dad two_genes then p1 * PROBS_mutation
      else p1 * (1 - PROBS_mutation) in
    (* gene comes from father and not mother (p2) *)
    let p2 :=
      if is_in mom one_gene then 0.5
      else if is_in mom two_genes then PROBS_mutation
      else 1 - PROBS_mutation in
    let p2 :=
      if is_in dad one_gene then p2 * 0.5
      else if is_in dad two_genes then p2 * (1 - PROBS_mutation)
      else p2 * PROBS_mutation in
    p1 + p2.

(** The branch [person in two_genes], up to the trait factor. *)
Definition two_genes_probability (mom dad : option string)
    (one_gene two_genes : gset string) : Q :=
  if is_None mom && is_None dad then
    PROBS_gene 2
  else
    let probability :=
      if is_in mom one_gene then 0.5
      else if is_in mom two_genes then 1 - PROBS_mutation
      else PROBS_mutation in
    if is_in dad one_gene then probability * 0.5
    else if is_in dad two_genes then probability * (1 - PROBS_mutation)
    else probability * PROBS_mutation.

(** The last branch: the person has no harmful gene. *)
Definition no_gene_probability (mom dad : option string)
    (one_gene two_genes : gset string) : Q :=
  if is_None mom && is_None dad then
    PROBS_gene 0
  else
    let probability :=
      if is_in mom one_gene then 0.5
      else if is_in mom two_genes then 1 - PROBS_mutation
      else PROBS_mutation in
    if is_in dad one_gene then probability * 0.5
    else if is_in dad two_genes then probability * (1 - PROBS_mutation)
    else probability * PROBS_mutation.

(** The value of [probability] when the [if]/[elif]/[else] computes the
    gene part of a person, before any trait factor is multiplied in. *)
Definition gene_factor (entry : Person) (person : string)
    (one_gene two_genes : gset string) : Q :=
  let mom := mother entry in
  let dad := father entry in
  if bool_decide (person ∈ one_gene) then
    one_gene_probability mom dad one_gene two_genes
  else if bool_decide (person ∈ two_genes) then
    two_genes_probability mom dad one_gene two_genes
  else
    no_gene_probability mom dad one_gene two_genes.

(** One turn of the loop [for person in people]: the value of
    [probability] that is multiplied into [cumulative_probability].  The
    first two branches end with their own trait factor; the statement
    after the [if] multiplies by PROBS["trait"][0] in every case. *)
Definition person_probability (entry : Person) (person : string)
    (one_gene two_genes have_trait : gset string) : Q :=
  let mom := mother entry in
  let dad := father entry in
  let probability :=
    if bool_decide (person ∈ one_gene) then
      one_gene_probability mom dad one_gene two_genes
      * PROBS_trait 1 (bool_decide (person ∈ have_trait))
    else if bool_decide (person ∈ two_genes) then
      two_genes_probability mom dad one_gene two_genes
      * PROBS_trait 2 (bool_decide (person ∈ have_trait))
    else
      no_gene_probability mom dad one_gene two_genes in
  probability * PROBS_trait 0 (bool_decide (person ∈ have_trait)).

Definition joint_probability (people : gmap string Person)
    (one_gene two_genes have_trait : gset string) : Q :=
  foldl (fun cumulative_probability '(person, entry) =>
           cumulative_probability
           * person_probability entry person one_gene two_genes have_trait)
        1 (map_to_list people).

(** *** update *)

Definition update_person (one_gene two_genes have_trait : gset string) (p : Q)
    (person : string) (d : Distributions) : Distributions :=
  let d :=
    if bool_decide (person ∈ one_gene) then add_gene d 1 p
    else if bool_decide (person ∈ two_genes) then add_gene d 2 p
    else add_gene d 0 p in
  add_trait d (bool_decide (person ∈ have_trait)) p.

(** [for person in probabilities]: each turn rewrites the entry of its
    own key in place. *)
Definition update (probabilities : gmap string Distributions)
    (one_gene two_genes have_trait : gset string) (p : Q)
    : gmap string Distributions :=
  foldl (fun probs person =>
           alter (update_person one_gene two_genes have_trait p person) person probs)
        probabilities (map_to_list probabilities).*1.

(** *** normalize *)

(** [gene_sum] after the loop [for i in range(3)], and [trait_sum]. *)
Definition gene_sum (d : Distributions) : Q :=
  0 + gene_at d 0 + gene_at d 1 + gene_at d 2.

Definition trait_sum (d : Distributions) : Q :=
  trait_at d true + trait_at d false.

(** The body of the loop of [normalize] for one person. *)
Definition normalize_person (d : Distributions) : exn + Distributions :=
  let! g0 := div (gene_at d 0) (gene_sum d) in
  let! g1 := div (gene_at d 1) (gene_sum d) in
  let! g2 := div (gene_at d 2) (gene_sum d) in
  let! t := div (trait_at d true) (trait_sum d) in
  let! f := div (trait_at d false) (trait_sum d) in
  inr {| gene_2 := g2; gene_1 := g1; gene_0 := g0;
         trait_True := t; trait_False := f |}.

Fixpoint normalize_loop (persons : list string)
    (probabilities : gmap string Distributions)
    : exn + gmap string Distributions :=
  match persons with
  | [] => inr probabilities
  | person :: persons' =>
      match probabilities !! person with
      | None => inl KeyError
      | Some d =>
          let! d' := normalize_person d in
          normalize_loop persons' (<[person := d']> probabilities)
      end
  end.

Definition normalize (probabilities : gmap string Distributions)
    : exn + gmap string Distributions :=
  normalize_loop (map_to_list probabilities).*1 probabilities.

(** *** main *)

(** Does the set [have_trait] violate known information?  The names are
    the keys of [people], so [people[person]] finds every one of them. *)
Definition fails_evidence (people : gmap string Person)
    (names have_trait : gset string) : bool :=
  existsb (fun person =>
             match people !! person with
             | Some entry =>
                 match trait entry with
                 | Some t => negb (Bool.eqb t (bool_decide (person ∈ have_trait)))
                 | None => false
                 end
             | None => false
             end)
          (elements names).

(** The three nested loops of [main], from the zeroed table to the table
    handed to [normalize]. *)
Definition accumulate (people : gmap string Person)
    : gmap string Distributions :=
  let probabilities := (fun _ => zero_distributions) <$> people in
  let names := dom people in
  foldl (fun probabilities have_trait =>
    if fails_evidence people names have_trait then probabilities
    else
      foldl (fun probabilities one_gene =>
        foldl (fun probabilities two_genes =>
                 let p := joint_probability people one_gene two_genes have_trait in
                 update probabilities one_gene two_genes have_trait p)
              probabilities (powerset (names ∖ one_gene)))
        probabilities (powerset names))
    probabilities (powerset names).

(** [main] after [load_data]: the table that is printed. *)
Definition main (people : gmap string Person)
    : exn + gmap string Distributions :=
  normalize (accumulate people).

(** *** Notions used to state the properties of [main] *)

(** The entry [normalize] leaves for a person when no division fails. *)
Definition normalized (d : Distributions) : Distributions :=
  {| gene_2 := gene_at d 2 / gene_sum d;
     gene_1 := gene_at d 1 / gene_sum d;
     gene_0 := gene_at d 0 / gene_sum d;
     trait_True := trait_at d true / trait_sum d;
     trait_False := trait_at d false / trait_sum d |}.

(** The table during the loops of [main]: every person's gene entries
    and trait entries add up to the same [total], the sum of the joint
    probabilities added so far, and nothing was added to the trait value
    that contradicts the person's observed trait. *)
Definition balanced (people : gmap string Person) (total : Q)
    (probabilities : gmap string Distributions) : Prop :=
  dom probabilities = dom people /\
  forall person d, probabilities !! person = Some d ->
    gene_sum d == total /\ trait_sum d == total /\
    forall entry t, people !! person = Some entry -> trait entry = Some t ->
      trait_at d (negb t) == 0.

(** Some enumerated set [have_trait] agrees with the observed traits. *)
Definition has_consistent_assignment (people : gmap string Person) : bool :=
  existsb (fun have_trait => negb (fails_evidence people (dom people) have_trait))
          (powerset (dom people)).

(** The observed trait of a person of the family, if any. *)
Definition observed_trait (people : gmap string Person) (person : string)
  : option bool :=
  match people !! person with
  | Some entry => trait entry
  | None => None
  end.

(** The people observed to have the trait. *)
Definition evident (people : gmap string Person) : gset string :=
  list_to_set (filter (fun person => observed_trait people person = Some true)
                      (elements (dom people))).

(** *** What the specification asks of [joint_probability] *)

(** The number of copies the assignment gives to a person (or parent). *)
Definition gene_count (x : option string) (one_gene two_genes : gset string) : nat :=
  if is_in x one_gene then 1 else if is_in x two_genes then 2 else 0.

(** The probability that a parent with [g] copies transmits the harmful
    allele: mu for 0, 0.5 for 1, 1 - mu for 2. *)
Definition transmits (g : nat) : Q :=
  match g with
  | 0%nat => PROBS_mutation
  | 1%nat => 0.5
  | _ => 1 - PROBS_mutation
  end.

(** P(child has [copies] copies) from a = P(mother transmits) and
    b = P(father transmits). *)
Definition inherited (copies : nat) (a b : Q) : Q :=
  match copies with
  | 2%nat => a * b
  | 1%nat => a * (1 - b) + (1 - a) * b
  | _ => (1 - a) * (1 - b)
  end.

(** P(gene_p): the prior without parents, the inherited probability
    with parents. *)
Definition gene_factor_spec (entry : Person) (person : string)
    (one_gene two_genes : gset string) : Q :=
  let copies := gene_count (Some person) one_gene two_genes in
  if is_None (mother entry) && is_None (father entry) then PROBS_gene copies
  else inherited copies
         (transmits (gene_count (mother entry) one_gene two_genes))
         (transmits (gene_count (father entry) one_gene two_genes)).

(** The product over all people of P(gene_p) * P(trait_p | gene_p). *)
Definition joint_probability_spec (people : gmap string Person)
    (one_gene two_genes have_trait : gset string) : Q :=
  foldl (fun acc '(person, entry) =>
           acc * (gene_factor_spec entry person one_gene two_genes
                  * PROBS_trait (gene_count (Some person) one_gene two_genes)
                                (bool_decide (person ∈ have_trait))))
        1 (map_to_list people).

(** *** Families used below *)

Definition person_of (n : string) (m f : option string) (t : option bool) : Person :=
  {| name := n; mother := m; father := f; trait := t |}.

(** One person, no recorded parents, trait unknown. *)
Definition family_of_one : gmap string Person :=
  {[ "Harry" := person_of "Harry" None None None ]}.

(** Harry's parents are Lily and James; James is known to have the
    trait, Lily not to have it. *)
Definition family0 : gmap string Person :=
  <[ "Harry" := person_of "Harry" (Some "Lily") (Some "James") None ]>
  (<[ "James" := person_of "James" None None (Some true) ]>
  (<[ "Lily" := person_of "Lily" None None (Some false) ]> ∅)).

(** The zeroed table of a family of one: no joint probability was
    added. *)
Definition zero_table : gmap string Distributions :=
  {[ "Harry" := zero_distributions ]}.

Definition some_table : gmap string Distributions :=
  {[ "Harry" := {| gene_2 := 0.01; gene_1 := 0.03; gene_0 := 0.96;
                   trait_True := 0.25; trait_False := 0.75 |} ]}.

(** *** load_data *)

(** A row of the file as [csv.DictReader] yields it: the four fields of
    the header, each a string. *)
Record Row : Type := {
  row_name : string;
  row_mother : string;
  row_father : string;
  row_trait : string
}.

(** [s or None]: the empty string counts as false. *)
Definition or_None (s : string) : option string :=
  if String.eqb s "" then None else Some s.

Definition entry_of_row (row : Row) : Person :=
  {| name := row_name row;
     mother := or_None (row_mother row);
     father := or_None (row_father row);
     trait := if String.eqb (row_trait row) "1" then Some true
              else if String.eqb (row_trait row) "0" then Some false
              else None |}.

(** [load_data], from the rows on: [data[name] = {...}] for every row. *)
Definition load_data (rows : list Row) : gmap string Person :=
  foldl (fun data row => <[row_name row := entry_of_row row]> data) ∅ rows.

(** *** Notions used to state more properties *)

(** The same person with mother and father exchanged. *)
Definition swap_parents (entry : Person) : Person :=
  {| name := name entry; mother := father entry; father := mother entry;
     trait := trait entry |}.

End Heredity.

(** ** 2_uncertainty/pagerank/pagerank.py *)

Module PageRank.
Local Open Scope Q_scope.

Definition DAMPING : Q := 0.85.

(** A Python integer used as a number. *)
Definition Qnat (n : nat) : Q := inject_Z (Z.of_nat n).

(** The keys of a dictionary, in the order a loop visits them. *)
Definition keys {V : Type} (m : gmap string V) : list string :=
  (map_to_list m).*1.

(** [d[k]]: a missing key raises KeyError. *)
Definition item {V : Type} (m : gmap string V) (k : string) : exn + V :=
  match m !! k with
  | Some v => inr v
  | None => inl KeyError
  end.

(** *** transition_model *)

Definition transition_model (corpus : gmap string (gset string))
    (page : string) (damping_factor : Q) : exn + gmap string Q :=
  let distribution : gmap string Q := ∅ in
  let! page_links := item corpus page in
  let links := size page_links in
  if negb (links =? 0)%nat then
    let! distribution :=
      foldl (fun acc link =>
               let! distribution := acc in
               let! base := div (1 - damping_factor) (Qnat (size corpus)) in
               inr (<[link := base]> distribution))
            (inr distribution) (keys corpus) in
    foldl (fun acc link =>
             let! distribution := acc in
             let! old := item distribution link in
             let! share := div damping_factor (Qnat links) in
             inr (<[link := old + share]> distribution))
          (inr distribution) (elements page_links)
  else
    foldl (fun acc link =>
             let! distribution := acc in
             let! uniform := div 1 (Qnat (size corpus)) in
             inr (<[link := uniform]> distribution))
          (inr distribution) (keys corpus).

(** *** sample_pagerank *)

(** The random module, as the two calls of [sample_pagerank] use it:
    [choice population] is the outcome of [random.choice]; [choices i
    population weights] is the outcome of the call of [random.choices] in
    turn [i] of the loop. *)
Record Random : Type := {
  choice : list string -> string;
  choices : nat -> list string -> list Q -> string
}.

(** The inner loop: the running average of the transition
    distributions. *)
Definition average (i : nat) (distribution current_distribution : gmap string Q)
    : exn + gmap string Q :=
  foldl (fun acc page =>
           let! distribution := acc in
           let! old := item distribution page in
           let! current := item current_distribution page in
           let! new := div (Qnat (i - 1) * old + current) (Qnat i) in
           inr (<[page := new]> distribution))
        (inr distribution) (keys distribution).

(** The loop [for i in range(1, n)], over the list of the remaining
    values of [i]. *)
Fixpoint sample_loop (random : Random) (corpus : gmap string (gset string))
    (damping_factor : Q) (turns : list nat) (page : string)
    (distribution : gmap string Q) : exn + gmap string Q :=
  match turns with
  | [] => inr distribution
  | i :: turns' =>
      let! current_distribution := transition_model corpus page damping_factor in
      let! distribution := average i distribution current_distribution in
      let page := choices random i (keys distribution)
                          (map snd (map_to_list distribution)) in
      sample_loop random corpus damping_factor turns' page distribution
  end.

Definition sample_pagerank (random : Random) (corpus : gmap string (gset string))
    (damping_factor : Q) (n : nat) : exn + gmap string Q :=
  let distribution : gmap string Q := (fun _ => 0) <$> corpus in
  if (size corpus =? 0)%nat then inl IndexError (* random.choice([]) *)
  else
    let page := choice random (keys corpus) in
    sample_loop random corpus damping_factor (seq 1 (n - 1)) page distribution.

(** *** iterate_pagerank *)

(** [iterative_sum]: the loop variable is called [page] too, so the
    argument [page] is never read. *)
Definition iterative_sum (corpus : gmap string (gset string))
    (distribution : gmap string Q) (page : string) : exn + Q :=
  foldl (fun acc page =>
           let! s := acc in
           let! rank := item distribution page in
           let! page_links := item corpus page in
           let! share := div rank (Qnat (size page_links)) in
           inr (s + share))
        (inr 0) (keys distribution).

(** One pass of the [while] loop: [distribution] is the copy of the
    ranks taken before the pass; the outcome is the new ranks and
    [change]. *)
Definition update_pass (corpus : gmap string (gset string)) (d : Q)
    (ranks : gmap string Q) : exn + (gmap string Q * bool) :=
  let n := size corpus in
  let distribution := ranks in
  foldl (fun (acc : exn + (gmap string Q * bool)) page =>
           let! state := acc in
           let '(ranks, change) := state in
           let! base := div (1 - d) (Qnat n) in
           let! s := iterative_sum corpus distribution page in
           let new := base + d * s in
           let ranks := <[page := new]> ranks in
           if change then inr (ranks, true)
           else
             let! old := item distribution page in
             inr (ranks, negb (Qle_bool (Qabs (old - new)) 0.001)))
        (inr (ranks, false)) (keys corpus).

(** The ranks before the first pass: 1 / n for every page. *)
Definition initial_ranks (corpus : gmap string (gset string)) : exn + gmap string Q :=
  foldl (fun acc page =>
           let! ranks := acc in
           let! uniform := div 1 (Qnat (size corpus)) in
           inr (<[page := uniform]> ranks))
        (inr ∅) (keys corpus).

(** The [while] loop, for at most [fuel] passes: None when the fuel
    runs out before [change] stays False. *)
Fixpoint iterate_loop (fuel : nat) (corpus : gmap string (gset string)) (d : Q)
    (ranks : gmap string Q) : option (exn + gmap string Q) :=
  match fuel with
  | 0%nat => None
  | S fuel' =>
      match update_pass corpus d ranks with
      | inl e => Some (inl e)
      | inr (ranks', change) =>
          if change then iterate_loop fuel' corpus d ranks'
          else Some (inr ranks')
      end
  end.

Definition iterate_pagerank (fuel : nat) (corpus : gmap string (gset string))
    (damping_factor : Q) : option (exn + gmap string Q) :=
  match initial_ranks corpus with
  | inl e => Some (inl e)
  | inr ranks => iterate_loop fuel corpus damping_factor ranks
  end.

(** *** What the specification asks of the two estimators *)

(** The sum of a rank vector. *)
Definition rank_sum (ranks : gmap string Q) : Q :=
  foldl (fun s kv => s + snd kv) 0 (map_to_list ranks).

(** What page [q] gives to page [p] in one update: rank(q) / |L(q)| when
    [q] links to [p], rank(q) / N when [q] is dangling, nothing
    otherwise. *)
Definition contribution (corpus : gmap string (gset string))
    (ranks : gmap string Q) (p q : string) : Q :=
  match corpus !! q, ranks !! q with
  | Some page_links, Some rank =>
      if (size page_links =? 0)%nat then rank / Qnat (size corpus)
      else if bool_decide (p ∈ page_links) then rank / Qnat (size page_links)
      else 0
  | _, _ => 0
  end.

(** new_rank(p) = (1 - d) / N + d * (sum of the contributions to p). *)
Definition new_rank (corpus : gmap string (gset string)) (d : Q)
    (ranks : gmap string Q) (p : string) : Q :=
  (1 - d) / Qnat (size corpus)
  + d * foldl (fun s q => s + contribution corpus ranks p q) 0 (keys corpus).

(** The fraction of the visits that landed on page [p]; the visits of a
    run are the first page and then the page drawn in each turn. *)
Definition visit_fraction (visits : list string) (p : string) : Q :=
  Qnat (length (filter (fun v : string => v = p) visits)) / Qnat (length visits).

(** The rank of page [p] after one pass over [ranks]. *)
Definition rank_after (corpus : gmap string (gset string)) (d : Q)
    (ranks : gmap string Q) (p : string) : exn + Q :=
  let! state := update_pass corpus d ranks in
  item (fst state) p.

(** The rank vector after the first pass of [iterate_pagerank]. *)
Definition first_pass (corpus : gmap string (gset string)) (d : Q)
    : exn + gmap string Q :=
  let! ranks := initial_ranks corpus in
  let! state := update_pass corpus d ranks in
  inr (fst state).

(** The outcomes of a loop whose only failing operation is a division. *)
Definition sound {A : Type} (acc : exn + A) : Prop :=
  acc = inl ZeroDivisionError \/ exists a, acc = inr a.

(** *** Sums over the pages *)

(** The sum of a list of numbers. *)
Definition total (l : list Q) : Q := foldr Qplus 0 l.

(** The sum of [f page] over the pages of a list. *)
Definition sum_over (pages : list string) (f : string -> Q) : Q :=
  total (map f pages).

(** The number a rank vector holds for a page (0 when it holds none). *)
Definition value (m : gmap string Q) (page : string) : Q :=
  default 0 (m !! page).

(** The transition model of the specification: from a page with the
    out-set [page_links], the next page is [k] with probability
    (1 - d) / N + d [k in L] / |L|, or 1 / N from a dangling page. *)
Definition transition_probability (corpus : gmap string (gset string))
    (page_links : gset string) (d : Q) (k : string) : Q :=
  if (size page_links =? 0)%nat then 1 / Qnat (size corpus)
  else (1 - d) / Qnat (size corpus)
       + (if decide (k ∈ page_links) then d / Qnat (size page_links) else 0).

(** The number of links of a page. *)
Definition out_degree (corpus : gmap string (gset string)) (q : string) : nat :=
  size (default ∅ (corpus !! q)).

(** The sum of rank(q) / |L(q)| over every ranked page [q]. *)
Definition every_share (corpus : gmap string (gset string))
    (ranks : gmap string Q) : Q :=
  sum_over (keys ranks) (fun q => value ranks q / Qnat (out_degree corpus q)).

(** No page of the corpus is dangling. *)
Definition no_dangling (corpus : gmap string (gset string)) : Prop :=
  forall q page_links, corpus !! q = Some page_links -> (0 < size page_links)%nat.

(** Every link leads to a page of the corpus, as [crawl] ensures. *)
Definition closed (corpus : gmap string (gset string)) : Prop :=
  forall page page_links,
    corpus !! page = Some page_links -> page_links ⊆ dom corpus.

(** The random module returns a member of the population it is given. *)
Definition draws_from_population (random : Random) : Prop :=
  (forall population, population <> [] -> choice random population ∈ population) /\
  (forall i population weights,
     population <> [] -> choices random i population weights ∈ population).

(** *** Corpora used below *)

(** Two pages linking to each other. *)
Definition two_pages : gmap string (gset string) :=
  <[ "1.html" := {[ "2.html" ]} ]> (<[ "2.html" := {[ "1.html" ]} ]> ∅).

(** Page 1 links to page 2, which links nowhere. *)
Definition dangling : gmap string (gset string) :=
  <[ "1.html" := {[ "2.html" ]} ]> (<[ "2.html" := ∅ ]> ∅).

Definition half_half : gmap string Q :=
  <[ "1.html" := 0.5 ]> (<[ "2.html" := 0.5 ]> ∅).

(** A random source that starts on page 1 and then always draws
    page 2. *)
Definition one_then_two : Random :=
  {| choice := fun _ => "1.html"; choices := fun _ _ _ => "2.html" |}.

(** *** crawl *)

(** [s.endswith(suffix)]. *)
Definition ends_with (suffix s : string) : bool :=
  (String.length suffix <=? String.length s)%nat
  && String.eqb (String.substring (String.length s - String.length suffix)
                                  (String.length suffix) s)
                suffix.

(** [crawl], from the directory on: [directory] gives, for every name
    [os.listdir] returns, the targets [re.findall] extracts from the
    file.  The first loop keeps the files whose name ends in ".html",
    with their links other than themselves; the second keeps the links to
    pages of the corpus. *)
Definition crawl (directory : list (string * list string))
    : gmap string (gset string) :=
  let pages : gmap string (gset string) :=
    foldl (fun pages '(filename, links) =>
             if negb (ends_with ".html" filename) then pages
             else <[filename := list_to_set links ∖ {[filename]}]> pages)
          ∅ directory in
  foldl (fun pages filename =>
           alter (fun page_links => filter (fun link => link ∈ dom pages) page_links)
                 filename pages)
        pages (keys pages).

(** A random source that always returns the first member of the
    population. *)
Definition always_first : Random :=
  {| choice := fun population => hd "" population;
     choices := fun _ population _ => hd "" population |}.

(** Page 1 links to a page that is not in the corpus. *)
Definition broken : gmap string (gset string) :=
  <[ "1.html" := {[ "3.html" ]} ]> (<[ "2.html" := {[ "1.html" ]} ]> ∅).

End PageRank.


(** ** Loops over the keys of a dictionary, divisions *)

Module Dict.

Lemma key_of_map_to_list {V : Type} (m : gmap string V) (k : string) :
  k ∈ (map_to_list m).*1 <-> is_Some (m !! k).
Proof.
  rewrite list_elem_of_fmap. split.
  - intros [[k' v] [-> Hin]]. apply elem_of_map_to_list in Hin. eauto.
  - intros [v Hv]. exists (k, v). split; [reflexivity|].
    apply elem_of_map_to_list, Hv.
Qed.


Section ForEachKey.
Context {V : Type} (f : string -> V -> V).

(** A loop that rewrites the entry of each key of [keys] in place. *)
Lemma foldl_alter_lookup (keys : list string) (m : gmap string V) (k : string) :
  NoDup keys ->
  foldl (fun acc person => alter (f person) person acc) m keys !! k
  = if decide (k ∈ keys) then f k <$> m !! k else m !! k.
Proof.
  intros Hnd. revert m.
  induction Hnd as [|a keys Ha Hnd IH]; intros m; cbn [foldl].
  - rewrite decide_False; [reflexivity | apply not_elem_of_nil].
  - rewrite IH. destruct (decide (k = a)) as [->|Hne].
    + rewrite (decide_False _ _ Ha), decide_True by apply list_elem_of_here.
      apply lookup_alter_eq.
    + rewrite lookup_alter_ne by congruence.
      destruct (decide (k ∈ keys)) as [Hin|Hnin].
      * rewrite decide_True by (apply list_elem_of_further; exact Hin).
        reflexivity.
      * rewrite decide_False; [reflexivity|].
        intros [->|Hin]%elem_of_cons; [congruence | exact (Hnin Hin)].
Qed.

Lemma foreach_key_lookup (m : gmap string V) (k : string) :
  foldl (fun acc person => alter (f person) person acc) m (map_to_list m).*1 !! k
  = f k <$> m !! k.
Proof.
  rewrite foldl_alter_lookup by apply NoDup_fst_map_to_list.
  destruct (decide (k ∈ (map_to_list m).*1)) as [Hin|Hnin]; [reflexivity|].
  destruct (m !! k) as [v|] eqn:Hk; [|reflexivity].
  exfalso. apply Hnin. apply list_elem_of_fmap. exists (k, v).
  split; [reflexivity|]. apply elem_of_map_to_list. exact Hk.
Qed.
End ForEachKey.

(** Once an exception is raised, the rest of a loop is skipped. *)
Lemma foldl_raised {A B : Type} (f : exn + A -> B -> exn + A) (e : exn) (l : list B) :
  (forall x, f (inl e) x = inl e) -> foldl f (inl e) l = inl e.
Proof.
  intros Hf. induction l as [|x l IH]; cbn [foldl]; [reflexivity|].
  rewrite Hf. exact IH.
Qed.

(** Divisions. *)
Lemma div_nonzero (x y : Q) : ~ (y == 0)%Q -> div x y = inr (x / y)%Q.
Proof.
  intros Hy. unfold div. destruct (Qeq_bool y 0) eqn:E; [|reflexivity].
  apply Qeq_bool_iff in E. contradiction.
Qed.

Lemma div_zero (x y : Q) : (y == 0)%Q -> div x y = inl ZeroDivisionError.
Proof.
  intros Hy. unfold div. apply Qeq_bool_iff in Hy. rewrite Hy. reflexivity.
Qed.

End Dict.
(** ** Facts about tictactoe.py *)

Module TicTacToeFacts.
Import TicTacToe.

Lemma row_has_empty_false (row : list cell) :
  row_has_empty row = false <-> forallb (fun c => negb (cell_eqb c EMPTY)) row = true.
Proof.
  induction row as [|c row IH]; simpl; [tauto|].
  destruct (cell_eqb c EMPTY); simpl; [split; discriminate | exact IH].
Qed.

(** What the code computes: [terminal] tests fullness and nothing else. *)
Lemma terminal_is_full (b : board) : terminal b = full b.
Proof.
  induction b as [|row b IH]; simpl; [reflexivity|].
  destruct (row_has_empty row) eqn:E.
  - destruct (forallb _ row) eqn:F; [|reflexivity].
    apply row_has_empty_false in F. congruence.
  - apply row_has_empty_false in E. unfold full in IH. rewrite E. exact IH.
Qed.

(** On every board that is won before it is full, the code and the
    specification's [terminal] disagree. *)
Lemma terminal_misses_early_win (b : board) :
  has_line b = true -> full b = false ->
  terminal b = false /\ terminal_spec b = true.
Proof.
  intros Hline Hfull. rewrite terminal_is_full. unfold terminal_spec.
  rewrite Hline, Hfull. split; reflexivity.
Qed.

Lemma board3_shape (b : board) :
  board3 b ->
  exists c00 c01 c02 c10 c11 c12 c20 c21 c22 : cell,
    b = [[c00; c01; c02]; [c10; c11; c12]; [c20; c21; c22]].
Proof.
  intros [Hlen Hrows].
  destruct b as [|r0 [|r1 [|r2 [|r3 b]]]]; try discriminate Hlen.
  inversion Hrows as [|? ? H0 Hrows1]; subst.
  inversion Hrows1 as [|? ? H1 Hrows2]; subst.
  inversion Hrows2 as [|? ? H2 _]; subst.
  destruct r0 as [|c00 [|c01 [|c02 [|? ?]]]]; try discriminate H0.
  destruct r1 as [|c10 [|c11 [|c12 [|? ?]]]]; try discriminate H1.
  destruct r2 as [|c20 [|c21 [|c22 [|? ?]]]]; try discriminate H2.
  repeat eexists.
Qed.

(** On a 3x3 board every subscript of [actions] is in range. *)
Lemma actions_board3 (b : board) :
  board3 b -> exists acts, actions b = inr acts.
Proof.
  intros Hb. destruct (board3_shape b Hb)
    as (c00 & c01 & c02 & c10 & c11 & c12 & c20 & c21 & c22 & ->).
  eexists. vm_compute. reflexivity.
Qed.

(** Raising either class without arguments raises TypeError instead. *)
Lemma raise_class_TypeError {A : Type} (c : exn_class) :
  @raise_class A c = inl TypeError.
Proof. destruct c; reflexivity. Qed.

(** On every 3x3 board and for every action, [result] ends in a
    TypeError: from the bare [raise GameOver] / [raise InvalidAction],
    or from the tuple subscript of the assignment. *)
Lemma result_board3_TypeError (b : board) (action : Z * Z) :
  board3 b -> result b action = inl TypeError.
Proof.
  intros Hb. unfold result.
  destruct (terminal b); [apply raise_class_TypeError|].
  destruct (actions_board3 b Hb) as [acts ->]. simpl.
  destruct (action_in action acts); simpl.
  - destruct action; reflexivity.
  - apply raise_class_TypeError.
Qed.

(** [result] never returns a board, on any input. *)
Lemma result_never_returns (b : board) (action : Z * Z) (b' : board) :
  result b action <> inr b'.
Proof.
  unfold result.
  destruct (terminal b); [rewrite raise_class_TypeError; discriminate|].
  destruct (actions b) as [e|acts]; simpl; [discriminate|].
  destruct (action_in action acts); simpl.
  - destruct action; discriminate.
  - rewrite raise_class_TypeError; discriminate.
Qed.

(** [winner] never reports a mark: None on a board with an empty cell,
    a TypeError from the tuple subscript on a full one. *)
Lemma winner_outcome (b : board) :
  winner b = if terminal b then inl TypeError else inr None.
Proof. unfold winner. destruct (terminal b); reflexivity. Qed.

(** C6 (defect of the code).  The claim: [terminal] is true exactly when
    some player has a complete line or no empty cell remains, so it is
    true on a board that is won but not full.  The code returns False on
    such a board: with X on the whole top row after five moves, the
    specification's [terminal] is true and the code's is false. *)
Theorem terminal_misses_won_board :
  board3 won_board /\
  has_line won_board = true /\
  full won_board = false /\
  terminal_spec won_board = true /\
  terminal won_board = false.
Proof.
  repeat split; try reflexivity.
  repeat constructor.
Qed.

(** C7 (defect of the code).  The claim: [result] raises GameOver on a
    terminal board, InvalidAction on an occupied or out-of-bounds cell,
    and otherwise returns the board with the mover's mark placed.  The
    code raises TypeError in each of the three cases: on the full board,
    on an occupied cell and an out-of-bounds cell of the won board, and
    on the first move of the game. *)
Theorem result_raises_TypeError :
  terminal full_board = true /\
  result full_board (0, 0)%Z = inl TypeError /\
  result won_board (0, 0)%Z = inl TypeError /\
  result won_board (3, 3)%Z = inl TypeError /\
  player initial_state = Some X /\
  result initial_state (0, 0)%Z = inl TypeError /\
  result initial_state (0, 0)%Z <> inr (place initial_state 0 0 (Some X)).
Proof.
  repeat split; try reflexivity.
  apply result_never_returns.
Qed.

End TicTacToeFacts.

(** ** More of tictactoe.py: terminal, actions, winner, utility *)

Module TicTacToeCoverage.
Import TicTacToe TicTacToeFacts.

Lemma cell_eqb_EMPTY (c : cell) : cell_eqb c EMPTY = true <-> c = EMPTY.
Proof. destruct c as [[|]|]; cbn; split; intros H; try discriminate H; reflexivity. Qed.

Lemma row_has_empty_iff (row : list cell) :
  row_has_empty row = false <-> forall c, c ∈ row -> c <> EMPTY.
Proof.
  induction row as [|c row IH]; cbn [row_has_empty].
  - split; [intros _ c Hc; exfalso; exact (not_elem_of_nil _ Hc) | reflexivity].
  - destruct (cell_eqb c EMPTY) eqn:E.
    + split; [discriminate|]. intros H. exfalso.
      apply (H c (list_elem_of_here _ _)), cell_eqb_EMPTY, E.
    + rewrite IH. split.
      * intros H c' [->|Hc']%elem_of_cons; [|exact (H c' Hc')].
        intros Hc. apply cell_eqb_EMPTY in Hc. congruence.
      * intros H c' Hc'. apply H, list_elem_of_further, Hc'.
Qed.

(** X1.  [terminal] returns True exactly when no cell of the board is
    EMPTY, whatever the shape of the board and whoever holds a line: a
    board without rows, or with empty rows only, is terminal. *)
Theorem terminal_iff_no_empty_cell (b : board) :
  terminal b = true <-> forall row c, row ∈ b -> c ∈ row -> c <> EMPTY.
Proof.
  induction b as [|row b IH]; cbn [terminal].
  - split; [intros _ row c Hrow; exfalso; exact (not_elem_of_nil _ Hrow) | reflexivity].
  - destruct (row_has_empty row) eqn:E.
    + split; [discriminate|]. intros H.
      assert (Hrow : row_has_empty row = false)
        by (apply row_has_empty_iff; intros c Hc; exact (H row c (list_elem_of_here _ _) Hc)).
      congruence.
    + rewrite IH. split.
      * intros H row' c [->|Hrow']%elem_of_cons Hc; [|exact (H row' c Hrow' Hc)].
        exact (proj1 (row_has_empty_iff row) E c Hc).
      * intros H row' c Hrow'. apply H, list_elem_of_further, Hrow'.
Qed.

(** *** actions on a 3x3 board *)

Lemma actions_row_value (b : board) (i : Z) (row : list cell) (acc : list (Z * Z)) :
  getitem b i = inr row -> length row = 3%nat ->
  actions_row b i range3 acc = inr (acc ++ empty_in_row i row).
Proof.
  intros Hrow Hlen.
  destruct row as [|c0 [|c1 [|c2 [|? ?]]]]; try discriminate Hlen.
  unfold empty_in_row, range3. cbn [actions_row flat_map]. rewrite Hrow. cbn [bind].
  change (getitem [c0; c1; c2] 0%Z) with (@inr exn cell c0).
  change (getitem [c0; c1; c2] 1%Z) with (@inr exn cell c1).
  change (getitem [c0; c1; c2] 2%Z) with (@inr exn cell c2).
  cbn [bind].
  destruct (cell_eqb c0 EMPTY), (cell_eqb c1 EMPTY), (cell_eqb c2 EMPTY);
    rewrite <- ?app_assoc; cbn [app]; rewrite ?app_nil_r; reflexivity.
Qed.

Lemma actions_value (r0 r1 r2 : list cell) :
  length r0 = 3%nat -> length r1 = 3%nat -> length r2 = 3%nat ->
  actions [r0; r1; r2]
  = inr (empty_in_row 0 r0 ++ empty_in_row 1 r1 ++ empty_in_row 2 r2).
Proof.
  intros H0 H1 H2. unfold actions, range3. cbn [actions_rows].
  fold range3.
  rewrite (actions_row_value _ 0%Z r0) by (reflexivity || assumption). cbn [bind].
  rewrite (actions_row_value _ 1%Z r1) by (reflexivity || assumption). cbn [bind].
  rewrite (actions_row_value _ 2%Z r2) by (reflexivity || assumption). cbn [bind].
  rewrite app_nil_l, <- app_assoc. reflexivity.
Qed.

Lemma action_in_app (a : Z * Z) (l l' : list (Z * Z)) :
  action_in a (l ++ l') = action_in a l || action_in a l'.
Proof. apply existsb_app. Qed.

Lemma in_empty_in_row (i : Z) (row : list cell) (a : Z * Z) :
  length row = 3%nat ->
  action_in a (empty_in_row i row) = true <->
  fst a = i /\ (0 <= snd a < 3)%Z /\ nth_error row (Z.to_nat (snd a)) = Some EMPTY.
Proof.
  intros Hlen. destruct a as [ai aj].
  destruct row as [|c0 [|c1 [|c2 [|? ?]]]]; try discriminate Hlen.
  unfold empty_in_row, range3. cbn [flat_map fst snd].
  change (getitem [c0; c1; c2] 0%Z) with (@inr exn cell c0).
  change (getitem [c0; c1; c2] 1%Z) with (@inr exn cell c1).
  change (getitem [c0; c1; c2] 2%Z) with (@inr exn cell c2).
  rewrite app_nil_r, !action_in_app.
  assert (Hone : forall (c : cell) (j : Z),
            action_in (ai, aj) (if cell_eqb c EMPTY then [(i, j)] else []) = true
            <-> ai = i /\ aj = j /\ c = EMPTY).
  { intros c j. rewrite <- cell_eqb_EMPTY. destruct (cell_eqb c EMPTY).
    - unfold action_in, action_eqb. cbn [existsb fst snd].
      rewrite Bool.orb_false_r, Bool.andb_true_iff, !Z.eqb_eq. tauto.
    - cbn. split; [discriminate | intros (_ & _ & H); discriminate H]. }
  rewrite !Bool.orb_true_iff, !Hone. split.
  - intros [(-> & -> & ->)|[(-> & -> & ->)|(-> & -> & ->)]];
      (split; [reflexivity | split; [lia | reflexivity]]).
  - intros (-> & Hj & Hcell).
    assert (Hcases : (aj = 0 \/ aj = 1 \/ aj = 2)%Z) by lia.
    destruct Hcases as [-> | [-> | -> ]]; cbn in Hcell; injection Hcell as ->; tauto.
Qed.

Ltac to_nat_literals :=
  change (Z.to_nat 0) with 0%nat in *;
  change (Z.to_nat 1) with 1%nat in *;
  change (Z.to_nat 2) with 2%nat in *.

(** X2.  On a 3x3 board [actions] returns the coordinates of exactly the
    EMPTY cells: [(i, j)] is in the set if and only if i and j are in
    range(3) and the cell at row i, column j is EMPTY. *)
Theorem actions_are_the_empty_cells (b : board) :
  board3 b ->
  exists acts,
    actions b = inr acts /\
    forall i j : Z,
      action_in (i, j) acts = true <->
      (0 <= i < 3)%Z /\ (0 <= j < 3)%Z /\
      cell_at b (Z.to_nat i) (Z.to_nat j) = EMPTY.
Proof.
  intros Hb. destruct (board3_shape b Hb)
    as (c00 & c01 & c02 & c10 & c11 & c12 & c20 & c21 & c22 & ->).
  eexists. split; [apply actions_value; reflexivity|].
  intros i j. rewrite !action_in_app, !Bool.orb_true_iff.
  rewrite !in_empty_in_row by reflexivity. cbn [fst snd]. split.
  - intros [(-> & Hj & Hc)|[(-> & Hj & Hc)|(-> & Hj & Hc)]];
      (split; [lia|]; split; [exact Hj|]);
      assert (Hcases : (j = 0 \/ j = 1 \/ j = 2)%Z) by lia;
      destruct Hcases as [-> | [-> | -> ]]; unfold cell_at; to_nat_literals; cbn in Hc |- *; congruence.
  - intros (Hi & Hj & Hc).
    assert (Hi' : (i = 0 \/ i = 1 \/ i = 2)%Z) by lia.
    assert (Hj' : (j = 0 \/ j = 1 \/ j = 2)%Z) by lia.
    destruct Hi' as [-> | [-> | -> ]]; destruct Hj' as [-> | [-> | -> ]];
      unfold cell_at in Hc; to_nat_literals; cbn in Hc |- *; subst; tauto.
Qed.

Lemma actions_are_the_empty_cells_witness :
  board3 won_board /\
  exists acts,
    actions won_board = inr acts /\
    forall i j : Z,
      action_in (i, j) acts = true <->
      (0 <= i < 3)%Z /\ (0 <= j < 3)%Z /\
      cell_at won_board (Z.to_nat i) (Z.to_nat j) = EMPTY.
Proof.
  assert (H : board3 won_board) by (split; [reflexivity | repeat constructor]).
  split; [exact H | exact (actions_are_the_empty_cells won_board H)].
Defined.

Lemma empty_in_row_nil (i : Z) (row : list cell) :
  length row = 3%nat -> empty_in_row i row = [] <-> row_has_empty row = false.
Proof.
  intros Hlen. destruct row as [|c0 [|c1 [|c2 [|? ?]]]]; try discriminate Hlen.
  unfold empty_in_row, range3. cbn [flat_map row_has_empty].
  change (getitem [c0; c1; c2] 0%Z) with (@inr exn cell c0).
  change (getitem [c0; c1; c2] 1%Z) with (@inr exn cell c1).
  change (getitem [c0; c1; c2] 2%Z) with (@inr exn cell c2).
  cbv beta iota.
  destruct (cell_eqb c0 EMPTY), (cell_eqb c1 EMPTY), (cell_eqb c2 EMPTY);
    cbn; split; intros H; try discriminate H; reflexivity.
Qed.

(** X3.  A 3x3 board is terminal for the code exactly when [actions]
    returns the empty set. *)
Theorem terminal_iff_no_action (b : board) :
  board3 b -> terminal b = true <-> actions b = inr [].
Proof.
  intros Hb. destruct (board3_shape b Hb)
    as (c00 & c01 & c02 & c10 & c11 & c12 & c20 & c21 & c22 & ->).
  rewrite actions_value by reflexivity.
  set (r0 := [c00; c01; c02]). set (r1 := [c10; c11; c12]). set (r2 := [c20; c21; c22]).
  assert (H0 := empty_in_row_nil 0 r0 eq_refl).
  assert (H1 := empty_in_row_nil 1 r1 eq_refl).
  assert (H2 := empty_in_row_nil 2 r2 eq_refl).
  cbn [terminal].
  destruct (row_has_empty r0), (row_has_empty r1), (row_has_empty r2);
    split; intros H; try discriminate H; try reflexivity.
  all: try (injection H as H; apply app_eq_nil in H as [Ha H];
            apply app_eq_nil in H as [Hb' Hc];
            first [ apply H0 in Ha; discriminate Ha
                  | apply H1 in Hb'; discriminate Hb'
                  | apply H2 in Hc; discriminate Hc ]).
  rewrite (proj2 H0 eq_refl), (proj2 H1 eq_refl), (proj2 H2 eq_refl). reflexivity.
Qed.

Lemma terminal_iff_no_action_witness :
  board3 full_board /\ (terminal full_board = true <-> actions full_board = inr []).
Proof.
  assert (H : board3 full_board) by (split; [reflexivity | repeat constructor]).
  split; [exact H | exact (terminal_iff_no_action full_board H)].
Defined.

(** X4.  [winner] never names a winner and [utility] never returns 1 or
    -1: while an EMPTY cell is left [winner] returns None and [utility] 0,
    whatever lines are complete, and on a board without an EMPTY cell both
    raise TypeError from the subscript [board[0,0]]. *)
Theorem winner_and_utility_outcomes (b : board) :
  winner b = (if terminal b then inl TypeError else inr None) /\
  utility b = (if terminal b then inl TypeError else inr 0%Z) /\
  (forall m : mark, winner b <> inr (Some m)) /\
  utility b <> inr 1%Z /\ utility b <> inr (-1)%Z.
Proof.
  assert (Hw : winner b = if terminal b then inl TypeError else inr None)
    by (unfold winner; destruct (terminal b); reflexivity).
  assert (Hu : utility b = if terminal b then inl TypeError else inr 0%Z)
    by (unfold utility; rewrite Hw; destruct (terminal b); reflexivity).
  split; [exact Hw|]. split; [exact Hu|].
  rewrite Hw, Hu. destruct (terminal b); repeat split; try discriminate.
  all: intros m; discriminate.
Qed.

(** *** actions on a board that is too small *)

Lemma getitem_raises {A : Type} (l : list A) (i : Z) (e : exn) :
  getitem l i = inl e -> e = IndexError.
Proof.
  unfold getitem. destruct (_ || _)%bool; [congruence|].
  destruct (nth_error _ _); congruence.
Qed.

Lemma actions_row_outcome (b : board) (i : Z) (js : list Z) (acc : list (Z * Z)) :
  (exists acc', actions_row b i js acc = inr acc') \/
  actions_row b i js acc = inl IndexError.
Proof.
  revert acc. induction js as [|j js IH]; intros acc; cbn [actions_row].
  - left. eexists. reflexivity.
  - destruct (getitem b i) as [e|row] eqn:Hrow; cbn [bind].
    { right. rewrite (getitem_raises _ _ _ Hrow). reflexivity. }
    destruct (getitem row j) as [e|c] eqn:Hc; cbn [bind].
    { right. rewrite (getitem_raises _ _ _ Hc). reflexivity. }
    apply IH.
Qed.

(** X5.  On a board with fewer than three rows [actions] raises
    IndexError: the loops run over range(3) whatever the board holds. *)
Theorem actions_short_board (b : board) :
  (length b < 3)%nat -> actions b = inl IndexError.
Proof.
  intros Hlen. unfold actions, range3. cbn [actions_rows]. fold range3.
  destruct b as [|r0 [|r1 [|r2 b]]]; [reflexivity| | |cbn in Hlen; lia].
  - destruct (actions_row_outcome [r0] 0 range3 []) as [[a0 ->]| ->];
      [cbn [bind]|reflexivity].
    reflexivity.
  - destruct (actions_row_outcome [r0; r1] 0 range3 []) as [[a0 ->]| ->];
      [cbn [bind]|reflexivity].
    destruct (actions_row_outcome [r0; r1] 1 range3 a0) as [[a1 ->]| ->];
      [cbn [bind]|reflexivity].
    reflexivity.
Qed.

Lemma actions_short_board_witness :
  (length short_board < 3)%nat /\ actions short_board = inl IndexError.
Proof.
  assert (H : (length short_board < 3)%nat) by (cbn; lia).
  split; [exact H | exact (actions_short_board short_board H)].
Defined.

(** *** player *)

Lemma count_cell_shift (a b : nat) (acc : nat * nat) (c : cell) :
  count_cell (a + fst acc, b + snd acc)%nat c
  = (a + fst (count_cell acc c), b + snd (count_cell acc c))%nat.
Proof.
  destruct acc as [x o], c as [[|]|]; cbn [count_cell cell_eqb fst snd];
    f_equal; lia.
Qed.

Lemma count_row_shift (a b : nat) (row : list cell) (acc : nat * nat) :
  fold_left count_cell row (a + fst acc, b + snd acc)%nat
  = (a + fst (fold_left count_cell row acc),
     b + snd (fold_left count_cell row acc))%nat.
Proof.
  revert acc. induction row as [|c row IH]; intros acc; cbn [fold_left]; [reflexivity|].
  rewrite count_cell_shift. apply IH.
Qed.

Lemma count_rows_shift (a b : nat) (rows : board) (acc : nat * nat) :
  fold_left (fun acc row => fold_left count_cell row acc) rows
            (a + fst acc, b + snd acc)%nat
  = (a + fst (fold_left (fun acc row => fold_left count_cell row acc) rows acc),
     b + snd (fold_left (fun acc row => fold_left count_cell row acc) rows acc))%nat.
Proof.
  revert acc. induction rows as [|row rows IH]; intros acc; cbn [fold_left];
    [reflexivity|].
  rewrite count_row_shift. apply IH.
Qed.

(** A mark placed on an EMPTY cell adds one to the count of that mark. *)
Lemma count_row_insert (m : mark) (row : list cell) (j : nat) (acc : nat * nat) :
  nth_error row j = Some EMPTY ->
  fold_left count_cell (<[j := Some m]> row) acc
  = (match m with X => 1 | O => 0 end + fst (fold_left count_cell row acc),
     match m with X => 0 | O => 1 end + snd (fold_left count_cell row acc))%nat.
Proof.
  revert j acc. induction row as [|c row IH]; intros [|j] acc Hj;
    try discriminate Hj.
  - injection Hj as ->. cbn [insert list_insert fold_left].
    replace (count_cell acc (Some m))
      with (match m with X => 1 | O => 0 end + fst (count_cell acc EMPTY),
            match m with X => 0 | O => 1 end + snd (count_cell acc EMPTY))%nat
      by (destruct acc, m; reflexivity).
    apply count_row_shift.
  - cbn [insert list_insert fold_left]. apply IH. exact Hj.
Qed.

Lemma count_marks_place (m : mark) (b : board) (i j : nat) (row : list cell) :
  nth_error b i = Some row -> nth_error row j = Some EMPTY ->
  count_marks (place b i j (Some m))
  = (match m with X => 1 | O => 0 end + fst (count_marks b),
     match m with X => 0 | O => 1 end + snd (count_marks b))%nat.
Proof.
  intros Hi Hj. unfold place, count_marks. rewrite Hi.
  generalize (0%nat, 0%nat). revert i Hi.
  induction b as [|r b IH]; intros [|i] Hi acc; try discriminate Hi.
  - injection Hi as ->. cbn [insert list_insert fold_left].
    rewrite <- (count_rows_shift _ _ b (fold_left count_cell row acc)).
    f_equal. exact (count_row_insert m row j acc Hj).
  - cbn [insert list_insert fold_left]. apply IH. exact Hi.
Qed.

(** X24.  [player] alternates.  When it is X's turn, a mark of X on an
    EMPTY cell makes it O's turn, also when that mark fills the board.
    When X has one mark more than O it is O's turn, and after a mark of O
    on an EMPTY cell it is X's turn, or nobody's when the board is
    full. *)
Theorem player_alternates (b : board) (i j : nat) (row : list cell) :
  nth_error b i = Some row -> nth_error row j = Some EMPTY ->
  (player b = Some X -> player (place b i j (Some X)) = Some O) /\
  (forall n, count_marks b = (S n, n) ->
     player b = Some O /\
     player (place b i j (Some O))
     = if terminal (place b i j (Some O)) then None else Some X).
Proof.
  intros Hi Hj. split.
  - unfold player. rewrite (count_marks_place X b i j row Hi Hj).
    destruct (count_marks b) as [numX numO]. cbn [fst snd].
    destruct (numO <? numX)%nat eqn:Hlt; [discriminate|].
    destruct (numX =? numO)%nat eqn:Heq;
      [|rewrite andb_false_r; discriminate].
    apply Nat.eqb_eq in Heq. subst numO. intros _.
    assert (H : (0 + numX <? 1 + numX)%nat = true) by (apply Nat.ltb_lt; lia).
    rewrite H. reflexivity.
  - intros n Hn. unfold player. rewrite (count_marks_place O b i j row Hi Hj), Hn.
    cbn [fst snd].
    assert (H1 : (n <? S n)%nat = true) by (apply Nat.ltb_lt; lia).
    assert (H2 : (1 + n <? 0 + S n)%nat = false) by (apply Nat.ltb_ge; lia).
    assert (H3 : (0 + S n =? 1 + n)%nat = true) by (apply Nat.eqb_eq; lia).
    rewrite H1, H2, H3, andb_true_r. split; [reflexivity|].
    destruct (terminal (place b i j (Some O))); reflexivity.
Qed.

Lemma player_alternates_witness :
  nth_error initial_state 0 = Some [EMPTY; EMPTY; EMPTY] /\
  nth_error [EMPTY; EMPTY; EMPTY] 0 = Some EMPTY /\
  (player initial_state = Some X ->
   player (place initial_state 0 0 (Some X)) = Some O) /\
  (forall n, count_marks initial_state = (S n, n) ->
     player initial_state = Some O /\
     player (place initial_state 0 0 (Some O))
     = if terminal (place initial_state 0 0 (Some O)) then None else Some X).
Proof.
  split; [reflexivity|]. split; [reflexivity|].
  exact (player_alternates initial_state 0 0 [EMPTY; EMPTY; EMPTY] eq_refl eq_refl).
Defined.

End TicTacToeCoverage.

(** ** Facts about puzzle.py *)

Module KnightsFacts.
Import Knights.

(** *** Model checking decides entailment *)

Lemma forallb_agree {A : Type} (f g : A -> bool) (l : list A) :
  (forall x, In x l -> f x = g x) -> forallb f l = forallb g l.
Proof.
  induction l as [|x l IH]; intros H; cbn; [reflexivity|].
  rewrite (H x (or_introl eq_refl)), IH; [reflexivity|].
  intros y Hy. apply H. right. exact Hy.
Qed.

Lemma existsb_agree {A : Type} (f g : A -> bool) (l : list A) :
  (forall x, In x l -> f x = g x) -> existsb f l = existsb g l.
Proof.
  induction l as [|x l IH]; intros H; cbn; [reflexivity|].
  rewrite (H x (or_introl eq_refl)), IH; [reflexivity|].
  intros y Hy. apply H. right. exact Hy.
Qed.

Lemma symbols_of_operand (l : list Sentence) (s : Sentence) (n : string) :
  In s l -> n ∈ symbols s -> n ∈ ⋃ (map symbols l).
Proof.
  intros Hs Hn. apply elem_of_union_list. exists (symbols s).
  split; [apply list_elem_of_In, in_map, Hs | exact Hn].
Qed.

(** The value of a sentence depends on its own symbols only. *)
Lemma evaluate_agree (s : Sentence) (m m' : Model) :
  (forall n, n ∈ symbols s -> m n = m' n) -> evaluate s m = evaluate s m'.
Proof.
  induction s as [name|s IH|l IH|l IH|a b IHa IHb|a b IHa IHb]
    using Sentence_nested_ind; intros Hagree; cbn [evaluate].
  - apply Hagree. cbn. set_solver.
  - f_equal. apply IH, Hagree.
  - apply forallb_agree. intros c Hc.
    rewrite Forall_forall in IH. apply (IH c); [apply list_elem_of_In, Hc|].
    intros n Hn. apply Hagree. cbn [symbols]. eapply symbols_of_operand; eassumption.
  - apply existsb_agree. intros c Hc.
    rewrite Forall_forall in IH. apply (IH c); [apply list_elem_of_In, Hc|].
    intros n Hn. apply Hagree. cbn [symbols]. eapply symbols_of_operand; eassumption.
  - rewrite IHa, IHb; [reflexivity| |];
      intros n Hn; apply Hagree; cbn [symbols]; set_solver.
  - rewrite IHa, IHb; [reflexivity| |];
      intros n Hn; apply Hagree; cbn [symbols]; set_solver.
Qed.

(** Every model coincides on [syms] with one of the enumerated models. *)
Lemma all_models_cover (syms : list string) (m : Model) :
  exists m', In m' (all_models syms) /\ forall n, n ∈ syms -> m' n = m n.
Proof.
  induction syms as [|name syms (m' & Hin & Hag)].
  - exists (fun _ => false). split; [left; reflexivity|].
    intros n Hn. exfalso. exact (not_elem_of_nil _ Hn).
  - exists (assign name (m name) m'). split.
    + cbn [all_models]. apply in_flat_map. exists m'. split; [exact Hin|].
      destruct (m name); [left | right; left]; reflexivity.
    + intros n Hn. unfold assign. destruct (String.eqb n name) eqn:E.
      * apply String.eqb_eq in E. subst n. reflexivity.
      * apply Hag. apply elem_of_cons in Hn as [->|Hn]; [|exact Hn].
        rewrite String.eqb_refl in E. discriminate E.
Qed.

(** [model_check] returns True exactly when the knowledge entails the
    query. *)
Lemma model_check_entails (knowledge query : Sentence) :
  model_check knowledge query = true <-> entails knowledge query.
Proof.
  unfold model_check, entails. rewrite forallb_forall. split.
  - intros H m HK.
    destruct (all_models_cover (elements (symbols knowledge ∪ symbols query)) m)
      as (m' & Hin & Hag).
    specialize (H m' Hin).
    rewrite (evaluate_agree knowledge m' m), (evaluate_agree query m' m), HK in H.
    + exact H.
    + intros n Hn. apply Hag. set_solver.
    + intros n Hn. apply Hag. set_solver.
  - intros H m' _. specialize (H m').
    destruct (evaluate knowledge m'); [rewrite H; reflexivity | reflexivity].
Qed.

(** *** Puzzle 2 *)

(** Every model of Puzzle 2 is [model2] on the four symbols. *)
Lemma knowledge2_models (model : Model) :
  evaluate knowledge2 model = true ->
  model "A is a Knight" = false /\ model "A is a Knave" = true /\
  model "B is a Knight" = true /\ model "B is a Knave" = false.
Proof.
  cbn.
  destruct (model "A is a Knight"), (model "A is a Knave"),
           (model "B is a Knight"), (model "B is a Knave");
    cbn; intros H; try discriminate H; repeat split.
Qed.

Lemma model2_satisfies : evaluate knowledge2 model2 = true.
Proof. reflexivity. Qed.

(** C10.  Puzzle 2 entails that A is a knave and that B is a knight, and
    entails neither that A is a knight nor that B is a knave; the model
    enumeration of [model_check] decides the four queries the same way. *)
Theorem knowledge2_entails :
  (entails knowledge2 AKnave /\ entails knowledge2 BKnight /\
   ~ entails knowledge2 AKnight /\ ~ entails knowledge2 BKnave) /\
  (model_check knowledge2 AKnave = true /\
   model_check knowledge2 BKnight = true /\
   model_check knowledge2 AKnight = false /\
   model_check knowledge2 BKnave = false).
Proof.
  split; [|repeat split; vm_compute; reflexivity].
  repeat split.
  - intros model H. apply knowledge2_models in H. cbn. tauto.
  - intros model H. apply knowledge2_models in H. cbn. tauto.
  - intros H. specialize (H model2 model2_satisfies). discriminate H.
  - intros H. specialize (H model2 model2_satisfies). discriminate H.
Qed.

End KnightsFacts.

(** ** More of puzzle.py: the other puzzles and main *)

Module KnightsCoverage.
Import Knights KnightsFacts.

(** X6.  What [main] prints, under the evaluation the specification gives
    for logic.py: Puzzle 0 yields that A is a knave; Puzzles 1 and 2 that A
    is a knave and B a knight; Puzzle 3, as written in the source with
    [Or(AKnight, AKnight)], that A is a knight, B a knave and C a knight.
    Every symbol printed is entailed by its knowledge base, and no symbol
    left out is. *)
Theorem main_output :
  main = [("Puzzle 0", Some [AKnave]);
          ("Puzzle 1", Some [AKnave; BKnight]);
          ("Puzzle 2", Some [AKnave; BKnight]);
          ("Puzzle 3", Some [AKnight; BKnave; CKnight])] /\
  entails knowledge0 AKnave /\ ~ entails knowledge0 AKnight /\
  entails knowledge1 AKnave /\ entails knowledge1 BKnight /\
  ~ entails knowledge1 AKnight /\ ~ entails knowledge1 BKnave /\
  entails knowledge3 AKnight /\ entails knowledge3 BKnave /\
  entails knowledge3 CKnight /\
  ~ entails knowledge3 AKnave /\ ~ entails knowledge3 BKnight /\
  ~ entails knowledge3 CKnave.
Proof.
  split; [vm_compute; reflexivity|].
  repeat split;
    first [ apply model_check_entails; vm_compute; reflexivity
          | intros H; apply model_check_entails in H; vm_compute in H; discriminate H ].
Qed.

End KnightsCoverage.

(** ** Facts about heredity.py *)

Module HeredityFacts.
Import Heredity Dict.
Local Open Scope Q_scope.

(** *** A loop that makes progress at least once *)

Section Progress.
Context {A B : Type} (I Iplus : A -> Prop) (f : A -> B -> A).

Lemma foldl_keeps (l : list B) (a : A) :
  (forall a x, x ∈ l -> Iplus a -> Iplus (f a x)) ->
  Iplus a -> Iplus (foldl f a l).
Proof.
  revert a. induction l as [|x l IH]; intros a Hstep Ha; simpl; [exact Ha|].
  apply IH.
  - intros a' y Hy. apply Hstep. apply list_elem_of_further, Hy.
  - apply Hstep; [apply list_elem_of_here | exact Ha].
Qed.

Lemma foldl_progress (l : list B) (a : A) :
  (forall a x, x ∈ l -> I a -> I (f a x)) ->
  (forall a x, x ∈ l -> Iplus a -> Iplus (f a x)) ->
  (exists x, x ∈ l /\ forall a, I a -> Iplus (f a x)) ->
  I a -> Iplus (foldl f a l).
Proof.
  revert a. induction l as [|x l IH]; intros a HI HP [y [Hy Hprog]] Ha.
  - exfalso. exact (not_elem_of_nil _ Hy).
  - simpl. apply elem_of_cons in Hy as [->|Hy].
    + apply foldl_keeps.
      * intros a' z Hz. apply HP. apply list_elem_of_further, Hz.
      * apply Hprog, Ha.
    + apply IH.
      * intros a' z Hz. apply HI. apply list_elem_of_further, Hz.
      * intros a' z Hz. apply HP. apply list_elem_of_further, Hz.
      * exists y. split; [exact Hy | exact Hprog].
      * apply HI; [apply list_elem_of_here | exact Ha].
Qed.
End Progress.

(** *** powerset *)

(** The empty set is the first subset enumerated. *)
Lemma powerset_head (s : gset string) :
  exists rest, powerset s = ∅ :: rest.
Proof.
  unfold powerset. rewrite Nat.add_1_r. simpl.
  destruct (elements s); simpl; eexists; reflexivity.
Qed.

Lemma empty_in_powerset (s : gset string) : ∅ ∈ powerset s.
Proof. destruct (powerset_head s) as [rest ->]. apply list_elem_of_here. Qed.

(** Every subsequence of [l] is one of its combinations. *)
Lemma combinations_sublist {A : Type} (l' l : list A) :
  l' `sublist_of` l -> In l' (combinations l (length l')).
Proof.
  induction 1 as [|x l1 l2 Hsub IH|x l1 l2 Hsub IH].
  - left. reflexivity.
  - cbn [length combinations]. apply in_or_app. left. apply in_map, IH.
  - destruct l1 as [|y l1]; [left; reflexivity|].
    cbn [length combinations]. apply in_or_app. right. exact IH.
Qed.

(** The set of any subsequence of the elements is enumerated. *)
Lemma powerset_sublist (s : gset string) (l' : list string) :
  l' `sublist_of` elements s -> list_to_set l' ∈ powerset s.
Proof.
  intros Hsub. unfold powerset. apply list_elem_of_In, in_map, in_flat_map.
  exists (length l'). split; [|apply combinations_sublist, Hsub].
  apply in_seq. pose proof (sublist_length _ _ Hsub). lia.
Qed.

(** *** Some enumerated assignment always agrees with the evidence *)

Lemma evident_in_powerset (people : gmap string Person) :
  evident people ∈ powerset (dom people).
Proof. apply powerset_sublist, sublist_filter. Qed.

Lemma evident_consistent (people : gmap string Person) :
  fails_evidence people (dom people) (evident people) = false.
Proof.
  apply Bool.not_true_iff_false. intros H.
  apply existsb_exists in H as (person & Hin & Hbad).
  apply list_elem_of_In in Hin.
  destruct (people !! person) as [entry|] eqn:Hp; [|discriminate Hbad].
  destruct (trait entry) as [t|] eqn:Ht; [|discriminate Hbad].
  assert (Hobs : observed_trait people person = Some t)
    by (unfold observed_trait; rewrite Hp; exact Ht).
  destruct t.
  - rewrite bool_decide_eq_true_2 in Hbad; [discriminate Hbad|].
    apply elem_of_list_to_set, list_elem_of_filter. split; assumption.
  - rewrite bool_decide_eq_false_2 in Hbad; [discriminate Hbad|].
    intros [Hq _]%elem_of_list_to_set%list_elem_of_filter. congruence.
Qed.

(** The evidence of a family is never impossible: the set of the people
    observed to have the trait passes the check of [main]. *)
Lemma consistent_assignment_exists (people : gmap string Person) :
  has_consistent_assignment people = true.
Proof.
  unfold has_consistent_assignment. apply existsb_exists.
  exists (evident people). split.
  - apply list_elem_of_In, evident_in_powerset.
  - rewrite evident_consistent. reflexivity.
Qed.

(** *** joint_probability is positive *)

Ltac split_ifs :=
  repeat match goal with
         | |- context [if ?c then _ else _] => destruct c
         end.

Lemma one_gene_probability_pos mom dad one_gene two_genes :
  0 < one_gene_probability mom dad one_gene two_genes.
Proof.
  unfold one_gene_probability, PROBS_gene, PROBS_mutation. split_ifs; lra.
Qed.

Lemma two_genes_probability_pos mom dad one_gene two_genes :
  0 < two_genes_probability mom dad one_gene two_genes.
Proof.
  unfold two_genes_probability, PROBS_gene, PROBS_mutation. split_ifs; lra.
Qed.

Lemma no_gene_probability_pos mom dad one_gene two_genes :
  0 < no_gene_probability mom dad one_gene two_genes.
Proof.
  unfold no_gene_probability, PROBS_gene, PROBS_mutation. split_ifs; lra.
Qed.

Lemma PROBS_trait_pos (copies : nat) (b : bool) :
  (copies <= 2)%nat -> 0 < PROBS_trait copies b.
Proof.
  intros H. destruct copies as [|[|[|n]]]; [| | |lia]; destruct b; simpl; lra.
Qed.

Lemma Qmult_pos (x y : Q) : 0 < x -> 0 < y -> 0 < x * y.
Proof. intros Hx Hy. nra. Qed.

Lemma person_probability_pos entry person one_gene two_genes have_trait :
  0 < person_probability entry person one_gene two_genes have_trait.
Proof.
  unfold person_probability.
  apply Qmult_pos; [|apply PROBS_trait_pos; lia].
  destruct (bool_decide (person ∈ one_gene));
    [|destruct (bool_decide (person ∈ two_genes))].
  - apply Qmult_pos; [apply one_gene_probability_pos | apply PROBS_trait_pos; lia].
  - apply Qmult_pos; [apply two_genes_probability_pos | apply PROBS_trait_pos; lia].
  - apply no_gene_probability_pos.
Qed.

Lemma joint_probability_pos people one_gene two_genes have_trait :
  0 < joint_probability people one_gene two_genes have_trait.
Proof.
  unfold joint_probability.
  assert (H1 : 0 < 1) by lra. revert H1. generalize 1.
  induction (map_to_list people) as [|[person entry] l IH]; intros acc Hacc; simpl.
  - exact Hacc.
  - apply IH. apply Qmult_pos; [exact Hacc | apply person_probability_pos].
Qed.

(** *** update *)

Lemma update_lookup probabilities one_gene two_genes have_trait p person :
  update probabilities one_gene two_genes have_trait p !! person
  = update_person one_gene two_genes have_trait p person <$> probabilities !! person.
Proof.
  unfold update.
  apply (foreach_key_lookup (update_person one_gene two_genes have_trait p)).
Qed.

Lemma update_dom probabilities one_gene two_genes have_trait p :
  dom (update probabilities one_gene two_genes have_trait p) = dom probabilities.
Proof.
  apply set_eq. intros k.
  rewrite !elem_of_dom, update_lookup, fmap_is_Some. reflexivity.
Qed.

Lemma update_person_sums one_gene two_genes have_trait p person d :
  gene_sum (update_person one_gene two_genes have_trait p person d) == gene_sum d + p /\
  trait_sum (update_person one_gene two_genes have_trait p person d) == trait_sum d + p /\
  trait_at (update_person one_gene two_genes have_trait p person d)
           (negb (bool_decide (person ∈ have_trait)))
  == trait_at d (negb (bool_decide (person ∈ have_trait))).
Proof.
  unfold update_person, gene_sum, trait_sum.
  destruct (bool_decide (person ∈ one_gene)), (bool_decide (person ∈ two_genes)),
           (bool_decide (person ∈ have_trait)); simpl; repeat split; lra.
Qed.

(** An assignment that passes the evidence check gives every person
    with an observed trait that trait. *)
Lemma consistent_trait people have_trait person entry t :
  fails_evidence people (dom people) have_trait = false ->
  people !! person = Some entry -> trait entry = Some t ->
  bool_decide (person ∈ have_trait) = t.
Proof.
  intros Hev Hp Ht.
  destruct (Bool.eqb t (bool_decide (person ∈ have_trait))) eqn:E.
  - symmetry. apply Bool.eqb_prop, E.
  - exfalso. apply Bool.not_true_iff_false in Hev. apply Hev.
    unfold fails_evidence. apply existsb_exists. exists person. split.
    + apply list_elem_of_In, elem_of_elements, elem_of_dom. eauto.
    + rewrite Hp, Ht, E. reflexivity.
Qed.

Lemma update_balanced people total probabilities one_gene two_genes have_trait p :
  fails_evidence people (dom people) have_trait = false ->
  balanced people total probabilities ->
  balanced people (total + p) (update probabilities one_gene two_genes have_trait p).
Proof.
  intros Hev [Hdom Hbal]. split; [rewrite update_dom; exact Hdom|].
  intros person d' Hl. rewrite update_lookup in Hl.
  destruct (probabilities !! person) as [d|] eqn:Hd; [|discriminate Hl].
  injection Hl as <-.
  destruct (Hbal person d Hd) as (Hg & Ht & Hobs).
  destruct (update_person_sums one_gene two_genes have_trait p person d)
    as (Hg' & Ht' & Hkeep).
  repeat split.
  - rewrite Hg', Hg. reflexivity.
  - rewrite Ht', Ht. reflexivity.
  - intros entry t Hp Htr.
    rewrite (consistent_trait people have_trait person entry t Hev Hp Htr) in Hkeep.
    rewrite Hkeep. exact (Hobs entry t Hp Htr).
Qed.

(** *** The loops of main *)

Section Accumulate.
Variable people : gmap string Person.

Let started (probabilities : gmap string Distributions) : Prop :=
  exists total, 0 <= total /\ balanced people total probabilities.
Let charged (probabilities : gmap string Distributions) : Prop :=
  exists total, 0 < total /\ balanced people total probabilities.

Lemma charged_started probabilities : charged probabilities -> started probabilities.
Proof. intros (total & Hpos & Hbal). exists total. split; [lra | exact Hbal]. Qed.

Lemma initial_started : started ((fun _ => zero_distributions) <$> people).
Proof.
  exists 0. split; [lra|]. split; [apply dom_fmap_L|].
  intros person d Hl. rewrite lookup_fmap in Hl.
  destruct (people !! person); [|discriminate Hl]. injection Hl as <-.
  repeat split; try reflexivity. intros entry [|] _ _; reflexivity.
Qed.

Lemma update_charges probabilities one_gene two_genes have_trait :
  fails_evidence people (dom people) have_trait = false ->
  started probabilities ->
  charged (update probabilities one_gene two_genes have_trait
             (joint_probability people one_gene two_genes have_trait)).
Proof.
  intros Hev (total & Hpos & Hbal).
  exists (total + joint_probability people one_gene two_genes have_trait).
  split; [|apply update_balanced; assumption].
  pose proof (joint_probability_pos people one_gene two_genes have_trait). lra.
Qed.

(** The loop over [two_genes], for a fixed [one_gene]. *)
Lemma two_genes_loop_charges probabilities one_gene have_trait :
  fails_evidence people (dom people) have_trait = false ->
  started probabilities ->
  charged (foldl (fun probabilities two_genes =>
                    let p := joint_probability people one_gene two_genes have_trait in
                    update probabilities one_gene two_genes have_trait p)
             probabilities (powerset (dom people ∖ one_gene))).
Proof.
  intros Hev Hs.
  apply (foldl_progress started charged); try exact Hs.
  - intros a x _ Ha. apply charged_started, update_charges; assumption.
  - intros a x _ Ha. apply update_charges; [assumption | apply charged_started, Ha].
  - exists ∅. split; [apply empty_in_powerset|].
    intros a Ha. apply update_charges; assumption.
Qed.

(** The loop over [one_gene], for a fixed [have_trait]. *)
Lemma one_gene_loop_charges probabilities have_trait :
  fails_evidence people (dom people) have_trait = false ->
  started probabilities ->
  charged (foldl (fun probabilities one_gene =>
             foldl (fun probabilities two_genes =>
                      let p := joint_probability people one_gene two_genes have_trait in
                      update probabilities one_gene two_genes have_trait p)
                   probabilities (powerset (dom people ∖ one_gene)))
             probabilities (powerset (dom people))).
Proof.
  intros Hev Hs.
  apply (foldl_progress started charged); try exact Hs.
  - intros a x _ Ha. apply charged_started, two_genes_loop_charges; assumption.
  - intros a x _ Ha. apply two_genes_loop_charges; [assumption | apply charged_started, Ha].
  - exists ∅. split; [apply empty_in_powerset|].
    intros a Ha. apply two_genes_loop_charges; assumption.
Qed.

(** When some enumerated [have_trait] passes the evidence check, the
    table handed to [normalize] is balanced with a positive total. *)
Lemma accumulate_charged :
  has_consistent_assignment people = true -> charged (accumulate people).
Proof.
  intros Hex. unfold accumulate.
  apply (foldl_progress started charged); try exact initial_started.
  - intros a x _ Ha. destruct (fails_evidence people (dom people) x) eqn:E;
      [exact Ha | apply charged_started, one_gene_loop_charges; assumption].
  - intros a x _ Ha. destruct (fails_evidence people (dom people) x) eqn:E;
      [exact Ha | apply one_gene_loop_charges; [assumption | apply charged_started, Ha]].
  - apply existsb_exists in Hex as (ht & Hin & Hok).
    exists ht. split; [apply list_elem_of_In, Hin|].
    intros a Ha. apply Bool.negb_true_iff in Hok. rewrite Hok.
    apply one_gene_loop_charges; assumption.
Qed.

Lemma accumulate_balanced :
  has_consistent_assignment people = true ->
  exists total, 0 < total /\ balanced people total (accumulate people).
Proof. exact accumulate_charged. Qed.
End Accumulate.

(** *** normalize *)

Lemma normalize_person_ok (d : Distributions) :
  ~ gene_sum d == 0 -> ~ trait_sum d == 0 ->
  normalize_person d = inr (normalized d).
Proof.
  intros Hg Ht. unfold normalize_person.
  rewrite !(div_nonzero _ _ Hg), !(div_nonzero _ _ Ht). reflexivity.
Qed.

Lemma normalize_person_zero (d : Distributions) :
  gene_sum d == 0 \/ trait_sum d == 0 ->
  normalize_person d = inl ZeroDivisionError.
Proof.
  intros Hz. unfold normalize_person.
  destruct (Qeq_dec (gene_sum d) 0) as [Hg|Hg].
  - rewrite (div_zero _ _ Hg). reflexivity.
  - destruct Hz as [Hz|Hz]; [contradiction|].
    rewrite !(div_nonzero _ _ Hg), (div_zero _ _ Hz). reflexivity.
Qed.

Lemma normalize_loop_ok (persons : list string)
    (probabilities : gmap string Distributions) :
  NoDup persons ->
  (forall k, k ∈ persons ->
     exists d, probabilities !! k = Some d /\ ~ gene_sum d == 0 /\ ~ trait_sum d == 0) ->
  exists probabilities',
    normalize_loop persons probabilities = inr probabilities' /\
    forall k, probabilities' !! k
              = if decide (k ∈ persons) then normalized <$> probabilities !! k
                else probabilities !! k.
Proof.
  intros Hnd. revert probabilities.
  induction Hnd as [|a persons Ha Hnd IH]; intros probabilities Hall; cbn [normalize_loop].
  - exists probabilities. split; [reflexivity|]. intros k.
    rewrite decide_False; [reflexivity | apply not_elem_of_nil].
  - destruct (Hall a (list_elem_of_here _ _)) as (d & Hd & Hg & Ht).
    rewrite Hd, (normalize_person_ok d Hg Ht). cbn [bind].
    destruct (IH (<[a := normalized d]> probabilities)) as (probabilities' & Hrun & Hlook).
    { intros k Hk. rewrite lookup_insert_ne by (intros ->; exact (Ha Hk)).
      apply Hall, list_elem_of_further, Hk. }
    exists probabilities'. split; [exact Hrun|]. intros k. rewrite Hlook.
    destruct (decide (k = a)) as [->|Hne].
    + rewrite (decide_False _ _ Ha), decide_True by apply list_elem_of_here.
      rewrite lookup_insert_eq, Hd. reflexivity.
    + rewrite lookup_insert_ne by congruence.
      destruct (decide (k ∈ persons)) as [Hin|Hnin].
      * rewrite decide_True by (apply list_elem_of_further; exact Hin). reflexivity.
      * rewrite decide_False; [reflexivity|].
        intros [->|Hin]%elem_of_cons; [congruence | exact (Hnin Hin)].
Qed.

Lemma normalize_loop_zero (persons : list string)
    (probabilities : gmap string Distributions) :
  NoDup persons ->
  (forall k, k ∈ persons -> is_Some (probabilities !! k)) ->
  (exists k d, k ∈ persons /\ probabilities !! k = Some d /\
               (gene_sum d == 0 \/ trait_sum d == 0)) ->
  normalize_loop persons probabilities = inl ZeroDivisionError.
Proof.
  intros Hnd. revert probabilities.
  induction Hnd as [|a persons Ha Hnd IH];
    intros probabilities Hall (k & d & Hk & Hd & Hz); cbn [normalize_loop].
  - exfalso. exact (not_elem_of_nil _ Hk).
  - destruct (Hall a (list_elem_of_here _ _)) as [da Hda]. rewrite Hda.
    destruct (Qeq_dec (gene_sum da) 0) as [Hg|Hg];
      [rewrite normalize_person_zero by (left; exact Hg); reflexivity|].
    destruct (Qeq_dec (trait_sum da) 0) as [Ht|Ht];
      [rewrite normalize_person_zero by (right; exact Ht); reflexivity|].
    rewrite (normalize_person_ok da Hg Ht). cbn [bind].
    apply elem_of_cons in Hk as [->|Hk].
    { exfalso. rewrite Hda in Hd. injection Hd as <-. tauto. }
    assert (Hne : a <> k) by (intros ->; exact (Ha Hk)).
    apply IH.
    + intros k' Hk'. rewrite lookup_insert_ne by (intros ->; exact (Ha Hk')).
      apply Hall, list_elem_of_further, Hk'.
    + exists k, d. rewrite lookup_insert_ne by exact Hne. auto.
Qed.

(** When no sum is zero, [normalize] returns the table of the
    normalized entries. *)
Lemma normalize_ok (probabilities : gmap string Distributions) :
  (forall k d, probabilities !! k = Some d ->
     ~ gene_sum d == 0 /\ ~ trait_sum d == 0) ->
  normalize probabilities = inr (normalized <$> probabilities).
Proof.
  intros Hall. unfold normalize.
  destruct (normalize_loop_ok (map_to_list probabilities).*1 probabilities)
    as (probabilities' & Hrun & Hlook).
  { apply NoDup_fst_map_to_list. }
  { intros k [d Hd]%key_of_map_to_list. exists d. split; [exact Hd|].
    apply (Hall k d Hd). }
  rewrite Hrun. f_equal. apply map_eq. intros k.
  rewrite Hlook, lookup_fmap.
  destruct (decide (k ∈ (map_to_list probabilities).*1)) as [Hin|Hnin]; [reflexivity|].
  destruct (probabilities !! k) as [d|] eqn:Hd; [|reflexivity].
  exfalso. apply Hnin, key_of_map_to_list. eauto.
Qed.

(** When some sum is zero, [normalize] raises ZeroDivisionError. *)
Lemma normalize_zero (probabilities : gmap string Distributions) :
  (exists k d, probabilities !! k = Some d /\
               (gene_sum d == 0 \/ trait_sum d == 0)) ->
  normalize probabilities = inl ZeroDivisionError.
Proof.
  intros (k & d & Hd & Hz). unfold normalize.
  apply normalize_loop_zero.
  - apply NoDup_fst_map_to_list.
  - intros k' Hk'. apply key_of_map_to_list, Hk'.
  - exists k, d. split; [apply key_of_map_to_list; eauto | auto].
Qed.

Lemma normalized_sums (d : Distributions) :
  ~ gene_sum d == 0 -> ~ trait_sum d == 0 ->
  gene_at (normalized d) 0 + gene_at (normalized d) 1 + gene_at (normalized d) 2 == 1 /\
  trait_at (normalized d) true + trait_at (normalized d) false == 1.
Proof.
  intros Hg Ht. unfold normalized.
  cbn [gene_at trait_at gene_2 gene_1 gene_0 trait_True trait_False].
  unfold gene_sum, trait_sum in *.
  cbn [gene_at trait_at gene_2 gene_1 gene_0 trait_True trait_False] in *.
  split; field; intros H; [apply Hg | apply Ht]; lra.
Qed.

Lemma unit_share (x y : Q) :
  y == 0 -> 0 < x + y -> x / (x + y) == 1 /\ y / (x + y) == 0.
Proof.
  intros Hy Hpos. rewrite Hy in *. split; field; lra.
Qed.

(** *** The gene factor *)

Section GeneFactor.
Variables (entry : Person) (person m f : string).
Variables (one_gene two_genes : gset string).
Hypothesis has_mother : mother entry = Some m.
Hypothesis has_father : father entry = Some f.

Let a : Q := transmits (gene_count (mother entry) one_gene two_genes).
Let b : Q := transmits (gene_count (father entry) one_gene two_genes).

Ltac gene_cases :=
  unfold gene_factor, a, b, gene_count, transmits, inherited,
         one_gene_probability, two_genes_probability, no_gene_probability,
         PROBS_mutation;
  rewrite has_mother, has_father; cbn [is_None andb is_in];
  repeat match goal with
         | |- context [bool_decide ?P] => destruct (bool_decide P)
         end;
  try discriminate; try lra.

(** A person in [two_genes]: a * b. *)
Lemma gene_factor_two_genes :
  bool_decide (person ∈ one_gene) = false ->
  bool_decide (person ∈ two_genes) = true ->
  gene_factor entry person one_gene two_genes == inherited 2 a b.
Proof. intros H1 H2. unfold gene_factor. rewrite H1, H2. gene_cases. Qed.

(** A person in [one_gene]: a (1 - b) + (1 - a) b. *)
Lemma gene_factor_one_gene :
  bool_decide (person ∈ one_gene) = true ->
  gene_factor entry person one_gene two_genes == inherited 1 a b.
Proof. intros H1. unfold gene_factor. rewrite H1. gene_cases. Qed.

(** A person in neither set: the code computes a * b again, the
    probability that both parents transmit the harmful allele. *)
Lemma gene_factor_no_gene :
  bool_decide (person ∈ one_gene) = false ->
  bool_decide (person ∈ two_genes) = false ->
  gene_factor entry person one_gene two_genes == a * b.
Proof. intros H1 H2. unfold gene_factor. rewrite H1, H2. gene_cases. Qed.
End GeneFactor.

(** The factors the code gives a person: the gene factor, the trait
    factor of the person's gene count and, for a person with one or two
    copies, the trait factor of gene count 0 on top. *)
Lemma person_probability_factors entry person one_gene two_genes have_trait :
  let copies := gene_count (Some person) one_gene two_genes in
  let has_trait := bool_decide (person ∈ have_trait) in
  person_probability entry person one_gene two_genes have_trait
  == gene_factor entry person one_gene two_genes
     * PROBS_trait copies has_trait
     * (if (copies =? 0)%nat then 1 else PROBS_trait 0 has_trait).
Proof.
  unfold person_probability, gene_factor, gene_count, is_in.
  destruct (bool_decide (person ∈ one_gene)); [cbn; ring|].
  destruct (bool_decide (person ∈ two_genes)); cbn; ring.
Qed.

(** *** The claims *)

(** C1 (defect of the code).  The claim: [joint_probability] is the
    product over all people of P(gene_p) * P(trait_p | gene_p), the
    trait factor taken once, from the table entry of the person's own
    gene count.  The code multiplies in PROBS["trait"][0] after the
    [if], so a person with one or two copies gets two trait factors: for
    a single person without parents, assigned one copy and no trait, the
    code returns 0.03 * 0.44 * 0.99 and the claimed product is
    0.03 * 0.44. *)
Theorem joint_probability_second_trait_factor :
  joint_probability family_of_one {[ "Harry" ]} ∅ ∅ == 0.03 * 0.44 * 0.99 /\
  joint_probability_spec family_of_one {[ "Harry" ]} ∅ ∅ == 0.03 * 0.44 /\
  ~ joint_probability family_of_one {[ "Harry" ]} ∅ ∅
    == joint_probability_spec family_of_one {[ "Harry" ]} ∅ ∅.
Proof.
  repeat split; try (vm_compute; reflexivity).
  intros H. vm_compute in H. discriminate H.
Qed.

(** C2 (defect of the code).  The claim: with two parents the gene
    factor is a * b in [two_genes], a (1 - b) + (1 - a) b in [one_gene]
    and (1 - a) (1 - b) in neither.  The first two hold
    ([gene_factor_two_genes], [gene_factor_one_gene]); in the last
    branch the code computes a * b: for Harry with no copy, whose
    parents Lily and James have no copy, a = b = 0.01, the code's factor
    is 0.0001 and the claimed one is 0.9801. *)
Theorem gene_factor_no_gene_wrong :
  let harry := person_of "Harry" (Some "Lily") (Some "James") None in
  let a := transmits (gene_count (mother harry) ∅ ∅) in
  let b := transmits (gene_count (father harry) ∅ ∅) in
  family0 !! "Harry" = Some harry /\
  a == 0.01 /\ b == 0.01 /\
  gene_factor harry "Harry" ∅ ∅ == 0.0001 /\
  inherited 0 a b == 0.9801 /\
  ~ gene_factor harry "Harry" ∅ ∅ == inherited 0 a b.
Proof.
  repeat split; try (vm_compute; reflexivity).
  intros H. vm_compute in H. discriminate H.
Qed.

(** C8.  In a family where some enumerated assignment agrees with the
    observed traits, [main] returns a table, and a person whose trait is
    observed as [t] has probability 1 for [t] and 0 for the other
    value. *)
Theorem evidence_respected (people : gmap string Person)
    (person : string) (entry : Person) (t : bool) :
  has_consistent_assignment people = true ->
  people !! person = Some entry ->
  trait entry = Some t ->
  exists probabilities d,
    main people = inr probabilities /\
    probabilities !! person = Some d /\
    trait_at d t == 1 /\ trait_at d (negb t) == 0.
Proof.
  intros Hex Hp Ht.
  destruct (accumulate_balanced people Hex) as (total & Hpos & Hdom & Hbal).
  assert (Hin : is_Some (accumulate people !! person)).
  { apply elem_of_dom. rewrite Hdom. apply elem_of_dom. eauto. }
  destruct Hin as [d0 Hd0].
  exists (normalized <$> accumulate people), (normalized d0).
  split; [|split].
  - unfold main. apply normalize_ok. intros k d Hd.
    destruct (Hbal k d Hd) as (Hg & Hs & _). split; intros H; lra.
  - rewrite lookup_fmap, Hd0. reflexivity.
  - destruct (Hbal person d0 Hd0) as (_ & Hs & Hobs).
    specialize (Hobs entry t Hp Ht).
    unfold trait_sum in Hs. unfold normalized, trait_sum.
    destruct t; cbn [trait_at negb trait_True trait_False] in *.
    + apply unit_share; [exact Hobs | lra].
    + rewrite Qplus_comm. apply and_comm. rewrite Qplus_comm in Hs.
      apply and_comm. apply unit_share; [exact Hobs | lra].
Qed.

Lemma evidence_respected_witness :
  has_consistent_assignment family0 = true /\
  exists probabilities d,
    main family0 = inr probabilities /\
    probabilities !! "James" = Some d /\
    trait_at d true == 1 /\ trait_at d (negb true) == 0.
Proof.
  split; [vm_compute; reflexivity|].
  apply (evidence_respected family0 "James" (person_of "James" None None (Some true)) true).
  - vm_compute; reflexivity.
  - reflexivity.
  - reflexivity.
Defined.

(** C9, as stated, fails: on a table whose sums are zero [normalize]
    raises ZeroDivisionError, which is not InvariantViolation. *)
Lemma normalize_zero_table :
  gene_sum zero_distributions == 0 /\
  normalize zero_table = inl ZeroDivisionError /\
  normalize zero_table <> inl InvariantViolation.
Proof.
  split; [reflexivity|].
  assert (H : normalize zero_table = inl ZeroDivisionError) by (vm_compute; reflexivity).
  split; [exact H | rewrite H; discriminate].
Qed.

(** C9, amended.  If some person's gene sum or trait sum is zero,
    [normalize] raises ZeroDivisionError: no table, and no NaN, is
    produced.  If every sum is strictly positive, [normalize] returns a
    table over the same people in which each gene distribution and each
    trait distribution sums to 1. *)
Theorem normalize_raises_or_sums_to_one (probabilities : gmap string Distributions) :
  ((exists person d, probabilities !! person = Some d /\
                     (gene_sum d == 0 \/ trait_sum d == 0)) ->
   normalize probabilities = inl ZeroDivisionError) /\
  ((forall person d, probabilities !! person = Some d ->
                     0 < gene_sum d /\ 0 < trait_sum d) ->
   exists probabilities',
     normalize probabilities = inr probabilities' /\
     dom probabilities' = dom probabilities /\
     forall person d', probabilities' !! person = Some d' ->
       gene_at d' 0 + gene_at d' 1 + gene_at d' 2 == 1 /\
       trait_at d' true + trait_at d' false == 1).
Proof.
  split; [apply normalize_zero|].
  intros Hpos.
  assert (Hnz : forall k d, probabilities !! k = Some d ->
                  ~ gene_sum d == 0 /\ ~ trait_sum d == 0).
  { intros k d Hd. destruct (Hpos k d Hd). split; intros H'; lra. }
  exists (normalized <$> probabilities).
  split; [apply normalize_ok, Hnz|]. split; [apply dom_fmap_L|].
  intros person d' Hl. rewrite lookup_fmap in Hl.
  destruct (probabilities !! person) as [d|] eqn:Hd; [|discriminate Hl].
  injection Hl as <-. destruct (Hnz person d Hd). apply normalized_sums; assumption.
Qed.

Lemma normalize_raises_or_sums_to_one_witness :
  normalize zero_table = inl ZeroDivisionError /\
  exists probabilities',
    normalize some_table = inr probabilities' /\
    dom probabilities' = dom some_table /\
    forall person d', probabilities' !! person = Some d' ->
      gene_at d' 0 + gene_at d' 1 + gene_at d' 2 == 1 /\
      trait_at d' true + trait_at d' false == 1.
Proof.
  split.
  - apply (proj1 (normalize_raises_or_sums_to_one zero_table)).
    exists "Harry", zero_distributions. split; [reflexivity|].
    left. reflexivity.
  - apply (proj2 (normalize_raises_or_sums_to_one some_table)).
    intros person d Hd. unfold some_table in Hd.
    apply lookup_singleton_Some in Hd as [_ <-].
    split; reflexivity.
Defined.

End HeredityFacts.

(** ** More of heredity.py: powerset, joint_probability, update,
    normalize, main, load_data *)

Module HeredityCoverage.
Import Heredity Dict HeredityFacts.
Local Open Scope Q_scope.

(** *** powerset *)

Lemma combinations_inv {A : Type} (l l' : list A) (r : nat) :
  In l' (combinations l r) -> l' `sublist_of` l /\ length l' = r.
Proof.
  revert r l'. induction l as [|x l IH]; intros [|r] l' Hin; cbn [combinations] in Hin.
  - destruct Hin as [<-|[]]. split; [constructor | reflexivity].
  - destruct Hin.
  - destruct Hin as [<-|[]]. split; [apply sublist_nil_l | reflexivity].
  - apply in_app_or in Hin as [Hin|Hin].
    + apply in_map_iff in Hin as (l0 & <- & Hin). destruct (IH r l0 Hin) as [Hsub <-].
      split; [apply sublist_skip, Hsub | reflexivity].
    + destruct (IH (S r) l' Hin) as [Hsub Hlen].
      split; [apply sublist_cons, Hsub | exact Hlen].
Qed.

Lemma combinations_NoDup {A : Type} (l : list A) (r : nat) :
  NoDup l -> NoDup (combinations l r).
Proof.
  intros Hnd. revert r. induction Hnd as [|x l Hx Hnd IH]; intros [|r]; cbn [combinations].
  - apply NoDup_singleton.
  - apply NoDup_nil_2.
  - apply NoDup_singleton.
  - apply NoDup_app. split; [|split].
    + apply (NoDup_fmap_2_strong (cons x)); [|apply IH].
      intros l1 l2 _ _ H. congruence.
    + intros l' Hin Hin'.
      apply list_elem_of_In, in_map_iff in Hin as (l0 & <- & _).
      apply list_elem_of_In, combinations_inv in Hin' as [Hsub _].
      apply Hx. eapply elem_of_sublist; [apply list_elem_of_here | exact Hsub].
    + apply IH.
Qed.

Lemma all_combinations_NoDup {A : Type} (l : list A) (rs : list nat) :
  NoDup l -> NoDup rs -> NoDup (flat_map (combinations l) rs).
Proof.
  intros Hl Hrs. induction Hrs as [|r rs Hr Hrs IH]; cbn [flat_map].
  - apply NoDup_nil_2.
  - apply NoDup_app. split; [apply combinations_NoDup, Hl|]. split; [|exact IH].
    intros l' Hin Hin'.
    apply list_elem_of_In, combinations_inv in Hin as [_ Hlen].
    apply list_elem_of_In, in_flat_map in Hin' as (r' & Hr' & Hin').
    apply combinations_inv in Hin' as [_ Hlen'].
    apply Hr. apply list_elem_of_In. congruence.
Qed.

Lemma filter_agree {A : Type} (P1 P2 : A -> Prop)
    `{forall x, Decision (P1 x)} `{forall x, Decision (P2 x)} (l : list A) :
  (forall x, x ∈ l -> P1 x <-> P2 x) -> filter P1 l = filter P2 l.
Proof.
  induction l as [|x l IH]; intros Hagree; [reflexivity|].
  rewrite !filter_cons.
  rewrite IH by (intros y Hy; apply Hagree, list_elem_of_further, Hy).
  pose proof (Hagree x (list_elem_of_here _ _)) as Hx.
  destruct (decide (P1 x)), (decide (P2 x)); tauto.
Qed.

(** A subsequence of a list without repetition is what the list keeps of
    its members. *)
Lemma filter_members {A : Type} `{EqDecision A} (l1 l : list A) :
  NoDup l -> l1 `sublist_of` l -> filter (fun y => y ∈ l1) l = l1.
Proof.
  intros Hnd Hsub. induction Hsub as [|x l1 l2 Hsub IH|x l1 l2 Hsub IH].
  - reflexivity.
  - apply NoDup_cons in Hnd as [Hx Hnd].
    rewrite filter_cons, decide_True by apply list_elem_of_here. f_equal.
    transitivity (filter (fun y => y ∈ l1) l2); [|exact (IH Hnd)].
    apply filter_agree. intros y Hy.
    rewrite elem_of_cons. split; [|tauto]. intros [->|Hin]; [contradiction | exact Hin].
  - apply NoDup_cons in Hnd as [Hx Hnd].
    rewrite filter_cons, decide_False; [exact (IH Hnd)|].
    intros Hin. apply Hx. exact (elem_of_sublist _ _ _ Hin Hsub).
Qed.

Lemma powerset_inv (s x : gset string) :
  x ∈ powerset s ->
  exists l, x = list_to_set l /\ l `sublist_of` elements s.
Proof.
  unfold powerset. intros Hin.
  apply list_elem_of_In, in_map_iff in Hin as (l & <- & Hin).
  apply in_flat_map in Hin as (r & _ & Hin).
  exists l. split; [reflexivity | exact (proj1 (combinations_inv _ _ _ Hin))].
Qed.

(** X7.  [powerset(s)] lists every subset of [s] exactly once: a set is
    in the list if and only if it is a subset of [s], and no set is
    listed twice. *)
Theorem powerset_every_subset_once (s : gset string) :
  NoDup (powerset s) /\ forall x : gset string, x ∈ powerset s <-> x ⊆ s.
Proof.
  split.
  - unfold powerset. apply NoDup_fmap_2_strong.
    + intros l1 l2 H1 H2 Heq.
      apply list_elem_of_In, in_flat_map in H1 as (r1 & _ & H1).
      apply list_elem_of_In, in_flat_map in H2 as (r2 & _ & H2).
      apply combinations_inv in H1 as [H1 _]. apply combinations_inv in H2 as [H2 _].
      rewrite <- (filter_members l1 (elements s)), <- (filter_members l2 (elements s));
        try assumption; try apply NoDup_elements.
      apply list_filter_iff. intros y.
      rewrite <- !(elem_of_list_to_set (C := gset string)), Heq. reflexivity.
    + apply all_combinations_NoDup; [apply NoDup_elements | apply NoDup_seq].
  - intros x. split.
    + intros Hin. apply powerset_inv in Hin as (l & -> & Hsub).
      intros y Hy. apply elem_of_list_to_set in Hy.
      apply elem_of_elements. exact (elem_of_sublist _ _ _ Hy Hsub).
    + intros Hsub.
      assert (Hx : x = list_to_set (filter (fun y => y ∈ x) (elements s))).
      { apply set_eq. intros y.
        rewrite elem_of_list_to_set, list_elem_of_filter, elem_of_elements.
        split; [intros Hy; split; [exact Hy | apply Hsub, Hy] | tauto]. }
      rewrite Hx. apply powerset_sublist, sublist_filter.
Qed.

Lemma list_sum_map_add {A : Type} (f g : A -> nat) (l : list A) :
  list_sum (map (fun x => f x + g x)%nat l)
  = (list_sum (map f l) + list_sum (map g l))%nat.
Proof. induction l as [|x l IH]; simpl; [reflexivity | rewrite IH; lia]. Qed.

Lemma list_sum_map_zero {A : Type} (f : A -> nat) (l : list A) :
  (forall x, In x l -> f x = 0%nat) -> list_sum (map f l) = 0%nat.
Proof.
  induction l as [|x l IH]; intros H; simpl; [reflexivity|].
  rewrite (H x (or_introl eq_refl)), IH; [reflexivity|].
  intros y Hy. apply H. right. exact Hy.
Qed.

Lemma list_sum_cons (a : nat) (l : list nat) :
  list_sum (a :: l) = (a + list_sum l)%nat.
Proof. reflexivity. Qed.

(** The number of combinations of every length up to [m]. *)
Lemma combinations_count {A : Type} (l : list A) (m : nat) :
  (length l <= m)%nat ->
  list_sum (map (fun r => length (combinations l r)) (seq 0 (S m)))
  = (2 ^ length l)%nat.
Proof.
  revert m. induction l as [|x l IH]; intros m Hm.
  - cbn [seq map]. rewrite list_sum_cons, list_sum_map_zero; [reflexivity|].
    intros r Hr. apply in_seq in Hr. destruct r as [|r]; [lia | reflexivity].
  - cbn [length] in Hm. destruct m as [|m]; [lia|].
    pose proof (IH m ltac:(lia)) as Hlow.
    pose proof (IH (S m) ltac:(lia)) as Hhigh.
    change (seq 0 (S (S m))) with (0%nat :: seq 1 (S m)) in Hhigh |- *.
    rewrite <- (seq_shift (S m) 0) in Hhigh |- *.
    cbn [map] in Hhigh |- *. rewrite map_map, list_sum_cons in Hhigh |- *.
    assert (Hone : length (combinations l 0) = 1%nat) by (destruct l; reflexivity).
    rewrite Hone in Hhigh.
    assert (Hstep : forall r, length (combinations (x :: l) (S r))
                    = (length (combinations l r) + length (combinations l (S r)))%nat).
    { intros r. cbn [combinations]. rewrite length_app, length_map. reflexivity. }
    rewrite (map_ext _ _ Hstep), list_sum_map_add, Hlow.
    cbn [length combinations]. change (2 ^ S (length l))%nat with (2 * 2 ^ length l)%nat.
    lia.
Qed.

(** X8.  [powerset(s)] has 2 ^ len(s) members. *)
Theorem powerset_length (s : gset string) :
  length (powerset s) = (2 ^ size s)%nat.
Proof.
  unfold powerset. rewrite length_map, length_flat_map, Nat.add_1_r.
  apply combinations_count. reflexivity.
Qed.

(** *** joint_probability *)

Ltac unfold_probabilities :=
  unfold person_probability, one_gene_probability, two_genes_probability,
         no_gene_probability, PROBS_gene, PROBS_trait, PROBS_mutation.




Lemma person_probability_swap entry person one_gene two_genes have_trait :
  person_probability (swap_parents entry) person one_gene two_genes have_trait
  == person_probability entry person one_gene two_genes have_trait.
Proof.
  unfold swap_parents. unfold_probabilities. cbn [mother father].
  destruct (mother entry), (father entry); cbn [is_None andb is_in];
    split_ifs; lra.
Qed.

Lemma foldl_swap (one_gene two_genes have_trait : gset string)
    (l : list (string * Person)) (acc acc' : Q) :
  acc == acc' ->
  foldl (fun cumulative_probability '(person, entry) =>
           cumulative_probability
           * person_probability entry person one_gene two_genes have_trait)
        acc (prod_map id swap_parents <$> l)
  == foldl (fun cumulative_probability '(person, entry) =>
              cumulative_probability
              * person_probability entry person one_gene two_genes have_trait)
           acc' l.
Proof.
  revert acc acc'. induction l as [|[person entry] l IH]; intros acc acc' Hacc.
  - exact Hacc.
  - rewrite fmap_cons. cbn [foldl prod_map fst snd id]. apply IH.
    rewrite Hacc, person_probability_swap. reflexivity.
Qed.

(** X14.  Exchanging mother and father of every person leaves
    [joint_probability] unchanged, for every assignment. *)
Theorem joint_probability_swap_parents people one_gene two_genes have_trait :
  joint_probability (swap_parents <$> people) one_gene two_genes have_trait
  == joint_probability people one_gene two_genes have_trait.
Proof.
  unfold joint_probability. rewrite map_to_list_fmap.
  apply foldl_swap. reflexivity.
Qed.

(** *** update *)

(** X10.  [update] keeps the set of people and, for every person, adds
    [p] to exactly two entries: the gene entry of the person's gene count
    in the assignment and the trait entry of the person's trait value;
    the other entries are left as they were. *)
Theorem update_adds_to_two_entries (probabilities : gmap string Distributions)
    (one_gene two_genes have_trait : gset string) (p : Q)
    (person : string) (d : Distributions) :
  probabilities !! person = Some d ->
  dom (update probabilities one_gene two_genes have_trait p) = dom probabilities /\
  exists d',
    update probabilities one_gene two_genes have_trait p !! person = Some d' /\
    let copies := gene_count (Some person) one_gene two_genes in
    let has_trait := bool_decide (person ∈ have_trait) in
    gene_at d' copies = gene_at d copies + p /\
    (forall c, (c <= 2)%nat -> c <> copies -> gene_at d' c = gene_at d c) /\
    trait_at d' has_trait = trait_at d has_trait + p /\
    trait_at d' (negb has_trait) = trait_at d (negb has_trait).
Proof.
  intros Hd. split; [apply update_dom|].
  rewrite update_lookup, Hd. eexists. split; [reflexivity|].
  unfold update_person, gene_count, is_in.
  destruct (bool_decide (person ∈ one_gene)), (bool_decide (person ∈ two_genes)),
           (bool_decide (person ∈ have_trait)); cbn;
    (split; [reflexivity|]); (split; [|split; reflexivity]);
    intros [|[|[|c]]] Hc Hne; cbn; try reflexivity; try lia; try congruence.
Qed.

Lemma update_adds_to_two_entries_witness :
  zero_table !! "Harry" = Some zero_distributions /\
  dom (update zero_table {[ "Harry" ]} ∅ ∅ 0.5) = dom zero_table /\
  exists d',
    update zero_table {[ "Harry" ]} ∅ ∅ 0.5 !! "Harry" = Some d' /\
    let copies := gene_count (Some "Harry") {[ "Harry" ]} ∅ in
    let has_trait := bool_decide ("Harry" ∈ (∅ : gset string)) in
    gene_at d' copies = gene_at zero_distributions copies + 0.5 /\
    (forall c, (c <= 2)%nat -> c <> copies ->
               gene_at d' c = gene_at zero_distributions c) /\
    trait_at d' has_trait = trait_at zero_distributions has_trait + 0.5 /\
    trait_at d' (negb has_trait) = trait_at zero_distributions (negb has_trait).
Proof.
  assert (H : zero_table !! "Harry" = Some zero_distributions) by reflexivity.
  split; [exact H|].
  exact (update_adds_to_two_entries zero_table {[ "Harry" ]} ∅ ∅ 0.5
           "Harry" zero_distributions H).
Defined.

(** *** normalize *)

(** A table that [normalize] returns comes from a table without a zero
    sum, entry by entry. *)
Lemma normalize_returns (probabilities probabilities' : gmap string Distributions) :
  normalize probabilities = inr probabilities' ->
  (forall k d, probabilities !! k = Some d ->
     ~ gene_sum d == 0 /\ ~ trait_sum d == 0) /\
  probabilities' = normalized <$> probabilities.
Proof.
  intros Hrun.
  assert (Hnz : forall k d, probabilities !! k = Some d ->
                  ~ gene_sum d == 0 /\ ~ trait_sum d == 0).
  { intros k d Hd. split; intros Hz;
      rewrite (normalize_zero probabilities) in Hrun by eauto; discriminate Hrun. }
  split; [exact Hnz|]. rewrite (normalize_ok _ Hnz) in Hrun. congruence.
Qed.

(** X11.  When [normalize] returns, every person is still in the table
    and every entry is the old entry divided by the sum of its
    distribution: the relative proportions are the same. *)
Theorem normalize_keeps_proportions (probabilities probabilities' : gmap string Distributions)
    (person : string) (d : Distributions) :
  normalize probabilities = inr probabilities' ->
  probabilities !! person = Some d ->
  exists d',
    probabilities' !! person = Some d' /\
    (forall copies, gene_at d' copies * gene_sum d == gene_at d copies) /\
    (forall has_trait, trait_at d' has_trait * trait_sum d == trait_at d has_trait).
Proof.
  intros Hrun Hd. destruct (normalize_returns _ _ Hrun) as [Hnz ->].
  destruct (Hnz person d Hd) as [Hg Ht].
  exists (normalized d). split; [rewrite lookup_fmap, Hd; reflexivity|].
  split.
  - intros [|[|[|c]]]; cbn [normalized gene_at gene_2 gene_1 gene_0]; field; exact Hg.
  - intros [|]; cbn [normalized trait_at trait_True trait_False]; field; exact Ht.
Qed.

Lemma normalize_keeps_proportions_witness :
  let d := {| gene_2 := 0.01; gene_1 := 0.03; gene_0 := 0.96;
              trait_True := 0.25; trait_False := 0.75 |} in
  normalize some_table = inr (normalized <$> some_table) /\
  some_table !! "Harry" = Some d /\
  exists d',
    (normalized <$> some_table) !! "Harry" = Some d' /\
    (forall copies, gene_at d' copies * gene_sum d == gene_at d copies) /\
    (forall has_trait, trait_at d' has_trait * trait_sum d == trait_at d has_trait).
Proof.
  intros d.
  assert (Hrun : normalize some_table = inr (normalized <$> some_table))
    by (vm_compute; reflexivity).
  assert (Hd : some_table !! "Harry" = Some d) by reflexivity.
  split; [exact Hrun|]. split; [exact Hd|].
  exact (normalize_keeps_proportions some_table _ "Harry" d Hrun Hd).
Defined.

Lemma normalized_unit_sums (d : Distributions) :
  ~ gene_sum d == 0 -> ~ trait_sum d == 0 ->
  gene_sum (normalized d) == 1 /\ trait_sum (normalized d) == 1.
Proof.
  intros Hg Ht. destruct (normalized_sums d Hg Ht) as [Hgene Htrait].
  unfold gene_sum at 1, trait_sum at 1. split; [|exact Htrait].
  rewrite <- Hgene. ring.
Qed.

(** X12.  Normalizing a second time changes nothing: when [normalize]
    returns a table, [normalize] of that table returns too, with the same
    people and equal entries. *)
Theorem normalize_twice (probabilities probabilities' : gmap string Distributions) :
  normalize probabilities = inr probabilities' ->
  exists probabilities'',
    normalize probabilities' = inr probabilities'' /\
    dom probabilities'' = dom probabilities' /\
    forall person d' d'',
      probabilities' !! person = Some d' -> probabilities'' !! person = Some d'' ->
      (forall copies, gene_at d'' copies == gene_at d' copies) /\
      (forall has_trait, trait_at d'' has_trait == trait_at d' has_trait).
Proof.
  intros Hrun. destruct (normalize_returns _ _ Hrun) as [Hnz ->].
  assert (Hunit : forall k d', (normalized <$> probabilities) !! k = Some d' ->
                    gene_sum d' == 1 /\ trait_sum d' == 1).
  { intros k d' Hd'. rewrite lookup_fmap in Hd'.
    destruct (probabilities !! k) as [d|] eqn:Hd; [|discriminate Hd'].
    injection Hd' as <-. destruct (Hnz k d Hd). apply normalized_unit_sums; assumption. }
  exists (normalized <$> (normalized <$> probabilities)).
  split; [|split].
  - apply normalize_ok. intros k d' Hd'. destruct (Hunit k d' Hd') as [Hg Ht].
    split; intros H; lra.
  - apply dom_fmap_L.
  - intros person d' d'' Hd' Hd''. rewrite lookup_fmap, Hd' in Hd''.
    injection Hd'' as <-. destruct (Hunit person d' Hd') as [Hg Ht]. split.
    + intros [|[|[|c]]]; cbn [normalized gene_at gene_2 gene_1 gene_0];
        rewrite Hg; field.
    + intros [|]; cbn [normalized trait_at trait_True trait_False];
        rewrite Ht; field.
Qed.

Lemma normalize_twice_witness :
  normalize some_table = inr (normalized <$> some_table) /\
  exists probabilities'',
    normalize (normalized <$> some_table) = inr probabilities'' /\
    dom probabilities'' = dom (normalized <$> some_table) /\
    forall person d' d'',
      (normalized <$> some_table) !! person = Some d' ->
      probabilities'' !! person = Some d'' ->
      (forall copies, gene_at d'' copies == gene_at d' copies) /\
      (forall has_trait, trait_at d'' has_trait == trait_at d' has_trait).
Proof.
  assert (Hrun : normalize some_table = inr (normalized <$> some_table))
    by (vm_compute; reflexivity).
  split; [exact Hrun | exact (normalize_twice some_table _ Hrun)].
Defined.

(** *** main *)

(** X13.  [main] never fails, whatever the family and the evidence: it
    returns a table over exactly the people of the family, in which every
    person's gene distribution and trait distribution each sum to 1. *)
Theorem main_returns_distributions (people : gmap string Person) :
  exists probabilities,
    main people = inr probabilities /\
    dom probabilities = dom people /\
    forall person d, probabilities !! person = Some d ->
      gene_at d 0 + gene_at d 1 + gene_at d 2 == 1 /\
      trait_at d true + trait_at d false == 1.
Proof.
  destruct (accumulate_balanced people (consistent_assignment_exists people))
    as (total & Hpos & Hdom & Hbal).
  assert (Hnz : forall k d, accumulate people !! k = Some d ->
                  ~ gene_sum d == 0 /\ ~ trait_sum d == 0).
  { intros k d Hd. destruct (Hbal k d Hd) as (Hg & Ht & _). split; intros H; lra. }
  exists (normalized <$> accumulate people). split; [|split].
  - unfold main. apply normalize_ok, Hnz.
  - rewrite dom_fmap_L. exact Hdom.
  - intros person d' Hd'. rewrite lookup_fmap in Hd'.
    destruct (accumulate people !! person) as [d|] eqn:Hd; [|discriminate Hd'].
    injection Hd' as <-. destruct (Hnz person d Hd). apply normalized_sums; assumption.
Qed.

(** *** load_data *)

(** X15.  [load_data] keeps one entry per name: the entry of a name is
    built from the last row of the file with that name (earlier rows with
    the name are overwritten), and a name that no row has is not a key. *)
Theorem load_data_last_row_wins (rows : list Row) (k : string) :
  load_data rows !! k
  = entry_of_row <$> last (filter (fun row => row_name row = k) rows).
Proof.
  unfold load_data. induction rows as [|row rows IH] using rev_ind.
  - reflexivity.
  - rewrite foldl_app, filter_app. cbn [foldl].
    rewrite filter_cons, filter_nil.
    destruct (decide (row_name row = k)) as [<-|Hne].
    + rewrite lookup_insert_eq, last_snoc. reflexivity.
    + rewrite lookup_insert_ne by exact Hne. rewrite app_nil_r. exact IH.
Qed.

End HeredityCoverage.

(** ** Facts about pagerank.py *)

Module PageRankFacts.
Import PageRank Dict.
Local Open Scope Q_scope.

(** The sum of [iterative_sum] is the same for every page: it runs over
    all of [distribution], whoever links to the page asked for. *)
Lemma iterative_sum_ignores_page corpus distribution (p q : string) :
  iterative_sum corpus distribution p = iterative_sum corpus distribution q.
Proof. reflexivity. Qed.

Lemma div_by_zero (x : Q) : div x (Qnat 0) = inl ZeroDivisionError.
Proof. reflexivity. Qed.

Lemma div_by_positive (x : Q) (n : nat) :
  (0 < n)%nat -> div x (Qnat n) = inr (x / Qnat n).
Proof.
  intros Hn. unfold div. destruct (Qeq_bool (Qnat n) 0) eqn:E; [|reflexivity].
  apply Qeq_bool_iff in E. unfold Qnat, Qeq in E. cbn in E. lia.
Qed.

Section IterativeSum.
Variables (corpus : gmap string (gset string)) (distribution : gmap string Q).
Hypothesis same_pages : dom distribution ⊆ dom corpus.

Let step (acc : exn + Q) (page : string) : exn + Q :=
  let! s := acc in
  let! rank := item distribution page in
  let! page_links := item corpus page in
  let! share := div rank (Qnat (size page_links)) in
  inr (s + share).

Lemma step_sound (acc : exn + Q) (page : string) :
  is_Some (distribution !! page) -> sound acc -> sound (step acc page).
Proof.
  intros [rank Hrank] [->|[s ->]]; [left; reflexivity|].
  assert (Hc : is_Some (corpus !! page)).
  { apply elem_of_dom, same_pages, elem_of_dom. eauto. }
  destruct Hc as [page_links Hlinks].
  unfold step, item. rewrite Hrank, Hlinks. cbn [bind].
  unfold div. destruct (Qeq_bool _ 0); cbn [bind]; [left | right; eexists]; reflexivity.
Qed.

Lemma step_dangling (acc : exn + Q) (page : string) :
  is_Some (distribution !! page) -> corpus !! page = Some ∅ -> sound acc ->
  step acc page = inl ZeroDivisionError.
Proof.
  intros [rank Hrank] Hlinks [->|[s ->]]; [reflexivity|].
  unfold step, item. rewrite Hrank, Hlinks. cbn [bind].
  rewrite size_empty, div_by_zero. reflexivity.
Qed.

Lemma loop_dangling (pages : list string) (acc : exn + Q) (q : string) :
  (forall page, page ∈ pages -> is_Some (distribution !! page)) ->
  q ∈ pages -> corpus !! q = Some ∅ -> sound acc ->
  foldl step acc pages = inl ZeroDivisionError.
Proof.
  revert acc. induction pages as [|page pages IH]; intros acc Hall Hq Hd Hacc.
  - exfalso. exact (not_elem_of_nil _ Hq).
  - cbn [foldl]. apply elem_of_cons in Hq as [<-|Hq].
    + rewrite step_dangling; try assumption.
      * apply foldl_raised. reflexivity.
      * apply Hall, list_elem_of_here.
    + apply IH; try assumption.
      * intros page' Hp. apply Hall, list_elem_of_further, Hp.
      * apply step_sound; [apply Hall, list_elem_of_here | exact Hacc].
Qed.

(** With a dangling page among the ranked pages, [iterative_sum] divides
    by zero, whatever page it is asked about. *)
Lemma iterative_sum_dangling (page q : string) :
  is_Some (distribution !! q) -> corpus !! q = Some ∅ ->
  iterative_sum corpus distribution page = inl ZeroDivisionError.
Proof.
  intros Hq Hd. unfold iterative_sum. apply (loop_dangling _ _ q).
  - intros page' Hp. apply key_of_map_to_list, Hp.
  - apply key_of_map_to_list, Hq.
  - exact Hd.
  - right. eexists. reflexivity.
Qed.
End IterativeSum.

(** A pass over a corpus with a dangling page raises ZeroDivisionError. *)
Lemma update_pass_dangling (corpus : gmap string (gset string)) (d : Q)
    (ranks : gmap string Q) (q : string) :
  dom ranks = dom corpus -> corpus !! q = Some ∅ ->
  update_pass corpus d ranks = inl ZeroDivisionError.
Proof.
  intros Hdom Hq. unfold update_pass.
  assert (Hrank : is_Some (ranks !! q)).
  { apply elem_of_dom. rewrite Hdom. apply elem_of_dom. eauto. }
  assert (Hsize : (0 < size corpus)%nat).
  { destruct (decide (size corpus = 0)%nat) as [Hz|Hnz]; [|lia].
    apply map_size_empty_iff in Hz. rewrite Hz, lookup_empty in Hq. discriminate Hq. }
  assert (Hkeys : keys corpus <> []).
  { intros Hnil. assert (Hin : q ∈ keys corpus) by (apply key_of_map_to_list; eauto).
    rewrite Hnil in Hin. exact (not_elem_of_nil _ Hin). }
  destruct (keys corpus) as [|page pages]; [congruence|].
  cbn [foldl bind].
  rewrite (div_by_positive _ _ Hsize). cbn [bind].
  assert (Hsub : dom ranks ⊆ dom corpus) by (rewrite Hdom; reflexivity).
  rewrite (iterative_sum_dangling corpus ranks Hsub page q Hrank Hq).
  cbn [bind]. apply foldl_raised. reflexivity.
Qed.

(** With [n = 1] the loop of [sample_pagerank] is empty: every page of a
    corpus with a page keeps the 0 it starts with. *)
Lemma sample_pagerank_one (random : Random) (corpus : gmap string (gset string))
    (d : Q) :
  (0 < size corpus)%nat ->
  sample_pagerank random corpus d 1 = inr ((fun _ => 0) <$> corpus).
Proof.
  intros Hsize. unfold sample_pagerank.
  destruct (size corpus) as [|n]; [lia | reflexivity].
Qed.

(** *** Sums over the pages *)

Lemma Qnat_S (n : nat) : Qnat (S n) == Qnat n + 1.
Proof. unfold Qnat. rewrite Nat2Z.inj_succ, <- Z.add_1_r, inject_Z_plus. reflexivity. Qed.

Lemma Qnat_pos (n : nat) : (0 < n)%nat -> 0 < Qnat n.
Proof. intros Hn. unfold Qnat, Qlt. cbn. lia. Qed.

Lemma total_perm (l l' : list Q) : l ≡ₚ l' -> total l == total l'.
Proof.
  induction 1 as [|x l l' _ IH|x y l|l l' l'' _ IH1 _ IH2]; cbn [total foldr].
  - reflexivity.
  - fold (total l) (total l'). rewrite IH. reflexivity.
  - ring.
  - fold (total l) (total l') (total l'') in *. rewrite IH1. exact IH2.
Qed.

Lemma foldl_total (l : list (string * Q)) (acc : Q) :
  foldl (fun s kv => s + snd kv) acc l == acc + total (map snd l).
Proof.
  revert acc. induction l as [|kv l IH]; intros acc; cbn [foldl map total foldr].
  - ring.
  - rewrite IH. fold (total (map snd l)). ring.
Qed.

Lemma total_of_items (m : gmap string Q) (l : list (string * Q)) :
  (forall k v, (k, v) ∈ l -> m !! k = Some v) ->
  total (map snd l) == sum_over (l.*1) (value m).
Proof.
  unfold sum_over. induction l as [|[k v] l IH]; intros Hl; [reflexivity|].
  change (((k, v) :: l).*1) with (k :: l.*1). cbn [map total foldr fst snd].
  fold (total (map snd l)) (total (map (value m) (l.*1))).
  rewrite IH by (intros k' v' Hin; apply Hl, list_elem_of_further, Hin).
  assert (Hk : value m k = v) by (unfold value; rewrite (Hl k v (list_elem_of_here _ _)); reflexivity).
  rewrite Hk. reflexivity.
Qed.

(** The sum of a rank vector is the sum of its values over any list of
    its pages without repetition. *)
Lemma rank_sum_over (m : gmap string Q) (pages : list string) :
  NoDup pages -> (forall k, k ∈ pages <-> is_Some (m !! k)) ->
  rank_sum m == sum_over pages (value m).
Proof.
  intros Hnd Hpages. unfold rank_sum. rewrite foldl_total, Qplus_0_l.
  rewrite (total_of_items m) by (intros k v; apply elem_of_map_to_list).
  apply total_perm, Permutation_map, NoDup_Permutation.
  - apply NoDup_fst_map_to_list.
  - exact Hnd.
  - intros k. rewrite key_of_map_to_list, Hpages. reflexivity.
Qed.

Lemma sum_over_ext (pages : list string) (f g : string -> Q) :
  (forall k, k ∈ pages -> f k == g k) -> sum_over pages f == sum_over pages g.
Proof.
  unfold sum_over. induction pages as [|k pages IH]; intros H; cbn; [reflexivity|].
  fold (total (map f pages)) (total (map g pages)).
  rewrite (H k (list_elem_of_here _ _)), IH; [reflexivity|].
  intros k' Hk'. apply H, list_elem_of_further, Hk'.
Qed.

Lemma sum_over_const (pages : list string) (c : Q) :
  sum_over pages (fun _ => c) == Qnat (length pages) * c.
Proof.
  unfold sum_over. induction pages as [|k pages IH]; cbn [map total foldr length].
  - unfold Qnat. cbn. ring.
  - fold (total (map (fun _ => c) pages)). rewrite IH, Qnat_S. ring.
Qed.

Lemma sum_over_plus (pages : list string) (f g : string -> Q) :
  sum_over pages (fun k => f k + g k) == sum_over pages f + sum_over pages g.
Proof.
  unfold sum_over. induction pages as [|k pages IH]; cbn [map total foldr]; [ring|].
  fold (total (map (fun k => f k + g k) pages))
       (total (map f pages)) (total (map g pages)).
  rewrite IH. ring.
Qed.

Lemma sum_over_scale (pages : list string) (c : Q) (f : string -> Q) :
  sum_over pages (fun k => c * f k) == c * sum_over pages f.
Proof.
  unfold sum_over. induction pages as [|k pages IH]; cbn [map total foldr]; [ring|].
  fold (total (map (fun k => c * f k) pages)) (total (map f pages)).
  rewrite IH. ring.
Qed.

Lemma sum_over_members (pages : list string) (s : gset string) (c : Q) :
  sum_over pages (fun k => if decide (k ∈ s) then c else 0)
  == Qnat (length (filter (fun k => k ∈ s) pages)) * c.
Proof.
  unfold sum_over. induction pages as [|k pages IH]; cbn [map total foldr].
  - unfold Qnat. cbn. ring.
  - fold (total (map (fun k => if decide (k ∈ s) then c else 0) pages)).
    rewrite IH, filter_cons. destruct (decide (k ∈ s)); cbn [length].
    + rewrite Qnat_S. ring.
    + ring.
Qed.

Lemma members_counted (pages : list string) (s : gset string) :
  NoDup pages -> (forall k, k ∈ s -> k ∈ pages) ->
  length (filter (fun k => k ∈ s) pages) = size s.
Proof.
  intros Hnd Hsub. apply Permutation_length, NoDup_Permutation.
  - apply NoDup_filter, Hnd.
  - apply NoDup_elements.
  - intros k. rewrite list_elem_of_filter, elem_of_elements. split; [tauto | auto].
Qed.

(** *** Loops that raise nothing *)

Lemma foldl_returns {A B : Type} (f : exn + A -> B -> exn + A) (g : A -> B -> A)
    (P : A -> Prop) (l : list B) (a : A) :
  (forall a x, x ∈ l -> P a -> f (inr a) x = inr (g a x) /\ P (g a x)) ->
  P a -> foldl f (inr a) l = inr (foldl g a l) /\ P (foldl g a l).
Proof.
  revert a. induction l as [|x l IH]; intros a Hstep Ha; cbn [foldl]; [auto|].
  destruct (Hstep a x (list_elem_of_here _ _) Ha) as [-> Hg].
  apply IH; [|exact Hg].
  intros a' y Hy. apply Hstep, list_elem_of_further, Hy.
Qed.

Lemma foldl_insert_lookup {V : Type} (c : V) (ks : list string)
    (m : gmap string V) (k : string) :
  foldl (fun m k => <[k := c]> m) m ks !! k
  = if decide (k ∈ ks) then Some c else m !! k.
Proof.
  revert m. induction ks as [|a ks IH]; intros m; cbn [foldl].
  - rewrite decide_False; [reflexivity | apply not_elem_of_nil].
  - rewrite IH. destruct (decide (k ∈ ks)) as [Hin|Hnin].
    + rewrite decide_True by (apply list_elem_of_further, Hin). reflexivity.
    + destruct (decide (k = a)) as [->|Hne].
      * rewrite decide_True by apply list_elem_of_here. apply lookup_insert_eq.
      * rewrite lookup_insert_ne by congruence.
        rewrite decide_False; [reflexivity|].
        intros [->|Hin]%elem_of_cons; [congruence | exact (Hnin Hin)].
Qed.

(** *** transition_model *)

Lemma length_keys {V : Type} (m : gmap string V) : length (keys m) = size m.
Proof. unfold keys. rewrite length_fmap. apply length_map_to_list. Qed.

Lemma key_in_dom {V : Type} (m : gmap string V) (k : string) :
  k ∈ keys m <-> k ∈ dom m.
Proof. unfold keys. rewrite key_of_map_to_list, elem_of_dom. reflexivity. Qed.

Lemma size_pos_of_lookup {V : Type} (m : gmap string V) (k : string) :
  is_Some (m !! k) -> (0 < size m)%nat.
Proof.
  intros Hk. assert (size m <> 0)%nat; [|lia].
  apply map_size_ne_0_lookup. eauto.
Qed.

(** The loop [for link in corpus: distribution[link] = c]. *)
Lemma constant_loop (pages : list string) (x c : Q) (n : nat) :
  (0 < n)%nat -> c = x / Qnat n ->
  foldl (fun acc link =>
           let! distribution := acc in
           let! base := div x (Qnat n) in
           inr (<[link := base]> distribution))
        (inr ∅) pages
  = inr (foldl (fun m k => <[k := c]> m) (∅ : gmap string Q) pages).
Proof.
  intros Hn ->.
  apply (foldl_returns _ (fun m k => <[k := x / Qnat n]> m) (fun _ => True)); [|exact I].
  intros m k _ _. cbn [bind]. rewrite (div_by_positive _ _ Hn). split; [reflexivity | exact I].
Qed.

Section Transition.
Variables (corpus : gmap string (gset string)) (page : string) (d : Q).
Variable page_links : gset string.
Hypothesis corpus_closed : closed corpus.
Hypothesis page_known : corpus !! page = Some page_links.

Lemma links_in_corpus (k : string) : k ∈ page_links -> k ∈ dom corpus.
Proof. intros Hk. exact (corpus_closed page page_links page_known k Hk). Qed.

(** [transition_model] returns the distribution of the specification's
    transition model over the pages of the corpus. *)
Lemma transition_model_values :
  exists T,
    transition_model corpus page d = inr T /\
    dom T = dom corpus /\
    forall k, k ∈ dom corpus ->
      value T k == transition_probability corpus page_links d k.
Proof.
  assert (Hsize : (0 < size corpus)%nat) by (eapply size_pos_of_lookup; eauto).
  unfold transition_model, item, transition_probability. rewrite page_known. cbn [bind].
  destruct (size page_links =? 0)%nat eqn:Hlinks; cbn [negb].
  - (* a dangling page *)
    rewrite (constant_loop _ 1 (1 / Qnat (size corpus)) _ Hsize eq_refl).
    eexists. split; [reflexivity|]. split.
    + apply set_eq. intros k. rewrite elem_of_dom, foldl_insert_lookup, <- key_in_dom.
      destruct (decide (k ∈ keys corpus)) as [Hin|Hnin].
      * split; [intros _; exact Hin | eauto].
      * rewrite lookup_empty. split; [intros [? ?]; discriminate | contradiction].
    + intros k Hk. unfold value. rewrite foldl_insert_lookup.
      rewrite decide_True by (apply key_in_dom, Hk). reflexivity.
  - (* a page with links *)
    apply Nat.eqb_neq in Hlinks.
    assert (Hl : (0 < size page_links)%nat) by lia.
    rewrite (constant_loop _ (1 - d) ((1 - d) / Qnat (size corpus)) _ Hsize eq_refl).
    cbn [bind].
    set (m1 := foldl (fun m k => <[k := (1 - d) / Qnat (size corpus)]> m) ∅ (keys corpus)).
    set (share := d / Qnat (size page_links)).
    assert (Hm1 : forall k, m1 !! k = if decide (k ∈ keys corpus)
                                      then Some ((1 - d) / Qnat (size corpus)) else None).
    { intros k. unfold m1. rewrite foldl_insert_lookup, lookup_empty. reflexivity. }
    destruct (foldl_returns
                (fun acc link =>
                   let! distribution := acc in
                   let! old := match distribution !! link with
                               | Some v => inr v
                               | None => inl KeyError
                               end in
                   let! share := div d (Qnat (size page_links)) in
                   inr (<[link := old + share]> distribution))
                (fun m k => alter (fun old => old + share) k m)
                (fun m => dom m = dom corpus)
                (elements page_links) m1) as [Hrun Hdom].
    { intros m k Hk Hm. apply elem_of_elements, links_in_corpus in Hk.
      rewrite <- Hm in Hk. apply elem_of_dom in Hk as [old Hold].
      cbn [bind]. rewrite Hold. cbn [bind]. rewrite (div_by_positive _ _ Hl). cbn [bind].
      rewrite (alter_alt_Some _ _ _ _ Hold). split; [reflexivity|].
      rewrite dom_insert_lookup_L by eauto. exact Hm. }
    { apply set_eq. intros k. rewrite elem_of_dom, Hm1, <- key_in_dom.
      destruct (decide (k ∈ keys corpus)) as [Hin|Hnin].
      - split; [intros _; exact Hin | eauto].
      - split; [intros [? ?]; discriminate | contradiction]. }
    eexists. split; [exact Hrun|]. split; [exact Hdom|].
    intros k Hk. unfold value.
    rewrite (foldl_alter_lookup (fun _ old => old + share)) by apply NoDup_elements.
    rewrite Hm1, (decide_True _ _ (proj2 (key_in_dom corpus k) Hk)).
    destruct (decide (k ∈ elements page_links)) as [Hin|Hnin]; cbn.
    + rewrite decide_True by (apply elem_of_elements, Hin). reflexivity.
    + rewrite decide_False by (intros H; apply Hnin, elem_of_elements, H). ring.
Qed.

(** The transition probabilities out of a page add up to 1. *)
Lemma transition_probability_total :
  sum_over (keys corpus) (transition_probability corpus page_links d) == 1.
Proof.
  assert (Hsize : (0 < size corpus)%nat) by (eapply size_pos_of_lookup; eauto).
  pose proof (Qnat_pos _ Hsize) as HN.
  unfold transition_probability.
  destruct (size page_links =? 0)%nat eqn:Hlinks.
  - rewrite sum_over_const, length_keys. field. lra.
  - apply Nat.eqb_neq in Hlinks.
    assert (HL : 0 < Qnat (size page_links)) by (apply Qnat_pos; lia).
    rewrite sum_over_plus, sum_over_const, sum_over_members, length_keys.
    rewrite members_counted.
    + field. split; lra.
    + apply NoDup_fst_map_to_list.
    + intros k Hk. apply key_in_dom, links_in_corpus, Hk.
Qed.

Lemma transition_model_total :
  exists T,
    transition_model corpus page d = inr T /\
    dom T = dom corpus /\ rank_sum T == 1.
Proof.
  destruct transition_model_values as (T & Hrun & Hdom & Hval).
  exists T. split; [exact Hrun|]. split; [exact Hdom|].
  rewrite (rank_sum_over T (keys corpus)).
  - rewrite (sum_over_ext _ _ (transition_probability corpus page_links d)).
    + apply transition_probability_total.
    + intros k Hk. apply Hval, key_in_dom, Hk.
  - apply NoDup_fst_map_to_list.
  - intros k. rewrite key_in_dom, <- Hdom, elem_of_dom. reflexivity.
Qed.
End Transition.

(** *** sample_pagerank *)

Lemma sum_over_average (pages : list string) (a i : Q) (f g : string -> Q) :
  ~ i == 0 ->
  sum_over pages (fun k => (a * f k + g k) / i)
  == (a * sum_over pages f + sum_over pages g) / i.
Proof.
  intros Hi. unfold sum_over.
  induction pages as [|k pages IH]; cbn [map total foldr].
  - field. exact Hi.
  - fold (total (map (fun k => (a * f k + g k) / i) pages))
         (total (map f pages)) (total (map g pages)).
    rewrite IH. field. exact Hi.
Qed.

Lemma keys_nonempty {V : Type} (m : gmap string V) (k : string) :
  k ∈ dom m -> keys m <> [].
Proof.
  intros Hk Hnil. apply key_in_dom in Hk. rewrite Hnil in Hk.
  exact (not_elem_of_nil _ Hk).
Qed.

Section Average.
Variables (i : nat) (distribution current_distribution : gmap string Q).
Hypothesis turn_positive : (0 < i)%nat.
Hypothesis same_pages : dom current_distribution = dom distribution.

Let mix (page : string) (old : Q) : Q :=
  (Qnat (i - 1) * old + value current_distribution page) / Qnat i.

(** The inner loop replaces every entry by the weighted mean of the
    entry and the current transition probability. *)
Lemma average_values :
  exists avg,
    average i distribution current_distribution = inr avg /\
    dom avg = dom distribution /\
    forall k, k ∈ dom distribution ->
      value avg k == (Qnat (i - 1) * value distribution k
                      + value current_distribution k) / Qnat i.
Proof.
  unfold average, item.
  destruct (foldl_returns
              (fun acc page =>
                 let! distribution := acc in
                 let! old := match distribution !! page with
                             | Some v => inr v
                             | None => inl KeyError
                             end in
                 let! current := match current_distribution !! page with
                                 | Some v => inr v
                                 | None => inl KeyError
                                 end in
                 let! new := div (Qnat (i - 1) * old + current) (Qnat i) in
                 inr (<[page := new]> distribution))
              (fun m k => alter (mix k) k m)
              (fun m => dom m = dom distribution)
              (keys distribution) distribution) as [Hrun Hdom].
  { intros m k Hk Hm. apply key_in_dom in Hk.
    assert (Hold : is_Some (m !! k)) by (apply elem_of_dom; rewrite Hm; exact Hk).
    assert (Hcur : is_Some (current_distribution !! k))
      by (apply elem_of_dom; rewrite same_pages; exact Hk).
    destruct Hold as [old Hold]. destruct Hcur as [cur Hcur].
    cbn [bind]. rewrite Hold, Hcur. cbn [bind].
    rewrite (div_by_positive _ _ turn_positive). cbn [bind].
    rewrite (alter_alt_Some _ _ _ _ Hold). unfold mix, value. rewrite Hcur.
    split; [reflexivity|]. rewrite dom_insert_lookup_L by eauto. exact Hm. }
  { reflexivity. }
  eexists. split; [exact Hrun|]. split; [exact Hdom|].
  intros k Hk. unfold value at 1.
  rewrite (foldl_alter_lookup mix) by apply NoDup_fst_map_to_list.
  fold (keys distribution).
  rewrite (decide_True _ _ (proj2 (key_in_dom distribution k) Hk)).
  apply elem_of_dom in Hk as [old Hold]. unfold value at 1. rewrite Hold.
  reflexivity.
Qed.

(** The mean of two vectors that sum to 1 sums to 1; in the first turn the
    old vector has weight 0. *)
Lemma average_total :
  rank_sum current_distribution == 1 ->
  i = 1%nat \/ rank_sum distribution == 1 ->
  exists avg,
    average i distribution current_distribution = inr avg /\
    dom avg = dom distribution /\ rank_sum avg == 1.
Proof.
  intros Hcur Hold.
  destruct average_values as (avg & Hrun & Hdom & Hval).
  exists avg. split; [exact Hrun|]. split; [exact Hdom|].
  pose proof (Qnat_pos _ turn_positive) as Hi.
  assert (Hpages : forall m : gmap string Q, dom m = dom distribution ->
            rank_sum m == sum_over (keys distribution) (value m)).
  { intros m Hm. apply rank_sum_over; [apply NoDup_fst_map_to_list|].
    intros k. rewrite key_in_dom, <- Hm, elem_of_dom. reflexivity. }
  rewrite (Hpages avg Hdom).
  rewrite (sum_over_ext _ _ (fun k => (Qnat (i - 1) * value distribution k
                                       + value current_distribution k) / Qnat i))
    by (intros k Hk; apply Hval, key_in_dom, Hk).
  rewrite sum_over_average by lra.
  rewrite <- (Hpages distribution eq_refl), <- (Hpages current_distribution same_pages), Hcur.
  destruct Hold as [->|Hold].
  - unfold Qnat. cbn. field.
  - rewrite Hold. destruct i as [|j]; [lia|].
    cbn [Nat.sub]. rewrite Nat.sub_0_r, Qnat_S.
    pose proof (Qnat_S j) as HS. rewrite HS in Hi. field. lra.
Qed.
End Average.

(** The loop of [sample_pagerank], from turn [i] on, for [len] turns. *)
Lemma sample_loop_total (random : Random) (corpus : gmap string (gset string))
    (d : Q) (len i : nat) (page : string) (distribution : gmap string Q) :
  closed corpus -> draws_from_population random ->
  (0 < i)%nat -> page ∈ dom corpus -> dom distribution = dom corpus ->
  i = 1%nat \/ rank_sum distribution == 1 ->
  exists result,
    sample_loop random corpus d (seq i len) page distribution = inr result /\
    dom result = dom corpus /\
    (len = 0%nat -> result = distribution) /\
    ((0 < len)%nat -> rank_sum result == 1).
Proof.
  intros Hclosed Hrandom. revert i page distribution.
  induction len as [|len IH]; intros i page distribution Hi Hpage Hdom Hsum.
  - exists distribution. cbn. repeat split; [exact Hdom | lia].
  - cbn [seq sample_loop].
    destruct (proj1 (elem_of_dom _ _) Hpage) as [page_links Hlinks].
    destruct (transition_model_total corpus page d page_links Hclosed Hlinks)
      as (T & -> & HdomT & HsumT).
    cbn [bind].
    destruct (average_total i distribution T Hi (eq_trans HdomT (eq_sym Hdom)) HsumT Hsum)
      as (avg & -> & Hdomavg & Hsumavg).
    cbn [bind].
    assert (Hdomavg' : dom avg = dom corpus) by (rewrite Hdomavg; exact Hdom).
    set (page' := choices random i (keys avg) (map snd (map_to_list avg))).
    assert (Hpage' : page' ∈ dom corpus).
    { rewrite <- Hdomavg'. apply key_in_dom. apply (proj2 Hrandom).
      apply (keys_nonempty avg page). rewrite Hdomavg'. exact Hpage. }
    destruct (IH (S i) page' avg (Nat.lt_0_succ i) Hpage' Hdomavg' (or_intror Hsumavg))
      as (result & Hrun & Hdomr & Hzero & Hpos).
    exists result. split; [exact Hrun|]. split; [exact Hdomr|].
    split; [lia|]. intros _.
    destruct len as [|len']; [rewrite (Hzero eq_refl); exact Hsumavg | apply Hpos; lia].
Qed.

(** From two samples on, over a corpus whose links stay in the corpus, the
    result of [sample_pagerank] sums to 1. *)
Lemma sample_pagerank_total (random : Random) (corpus : gmap string (gset string))
    (d : Q) (n : nat) :
  closed corpus -> draws_from_population random ->
  (0 < size corpus)%nat -> (2 <= n)%nat ->
  exists result,
    sample_pagerank random corpus d n = inr result /\
    dom result = dom corpus /\ rank_sum result == 1.
Proof.
  intros Hclosed Hrandom Hsize Hn. unfold sample_pagerank.
  destruct (size corpus =? 0)%nat eqn:E; [apply Nat.eqb_eq in E; lia|].
  assert (Hkeys : keys corpus <> []).
  { intros Hnil. pose proof (length_keys corpus) as Hlen.
    rewrite Hnil in Hlen. cbn in Hlen. lia. }
  destruct (sample_loop_total random corpus d (n - 1) 1
              (choice random (keys corpus)) ((fun _ => 0) <$> corpus))
    as (result & Hrun & Hdom & _ & Hpos); try assumption.
  - lia.
  - apply key_in_dom, (proj1 Hrandom), Hkeys.
  - apply dom_fmap_L.
  - left. reflexivity.
  - exists result. split; [exact Hrun|]. split; [exact Hdom|]. apply Hpos. lia.
Qed.

(** *** iterate_pagerank *)

Lemma foldl_sum_over (pages : list string) (f : string -> Q) (acc : Q) :
  foldl (fun s q => s + f q) acc pages == acc + sum_over pages f.
Proof.
  unfold sum_over. revert acc.
  induction pages as [|q pages IH]; intros acc; cbn [foldl map total foldr].
  - ring.
  - rewrite IH. fold (total (map f pages)). ring.
Qed.

Section UpdatePass.
Variables (corpus : gmap string (gset string)) (d : Q) (ranks : gmap string Q).
Hypothesis same_pages : dom ranks = dom corpus.
Hypothesis all_linked : no_dangling corpus.

(** Without a dangling page [iterative_sum] returns, for every page, the
    sum of rank(q) / |L(q)| over all the pages [q]. *)
Lemma iterative_sum_value (page : string) :
  exists s, iterative_sum corpus ranks page = inr s /\
            s == every_share corpus ranks.
Proof.
  assert (H : iterative_sum corpus ranks page
              = inr (foldl (fun s q => s + value ranks q / Qnat (out_degree corpus q))
                           0 (keys ranks)) /\ True).
  { unfold iterative_sum.
    apply (foldl_returns _
             (fun s q => s + value ranks q / Qnat (out_degree corpus q))
             (fun _ => True)); [|exact I].
    intros s q Hq _. split; [|exact I]. apply key_in_dom in Hq.
    destruct (proj1 (elem_of_dom _ _) Hq) as [rank Hrank].
    rewrite same_pages in Hq.
    destruct (proj1 (elem_of_dom _ _) Hq) as [page_links Hlinks].
    unfold item, value, out_degree. rewrite Hrank, Hlinks. cbn [bind default from_option id].
    rewrite (div_by_positive _ _ (all_linked q page_links Hlinks)). reflexivity. }
  destruct H as [-> _]. eexists. split; [reflexivity|].
  rewrite foldl_sum_over. unfold every_share. ring.
Qed.

(** Every page leaves the pass with the same rank: (1 - d) / N plus d times
    the sum over all pages, linked to it or not. *)
Lemma update_pass_values :
  exists ranks' change,
    update_pass corpus d ranks = inr (ranks', change) /\
    dom ranks' = dom corpus /\
    forall p, p ∈ dom corpus ->
      value ranks' p == (1 - d) / Qnat (size corpus) + d * every_share corpus ranks.
Proof.
  destruct (iterative_sum_value "") as (s & Hs & Hshare).
  set (new := (1 - d) / Qnat (size corpus) + d * s).
  set (g := fun (state : gmap string Q * bool) (page : string) =>
              (<[page := new]> (fst state),
               if snd state then true
               else negb (Qle_bool (Qabs (value ranks page - new)) 0.001))).
  assert (H : update_pass corpus d ranks = inr (foldl g (ranks, false) (keys corpus))
              /\ True).
  { unfold update_pass.
    apply (foldl_returns _ g (fun _ => True)); [|exact I].
    intros [m change] page Hpage _. split; [|exact I]. cbn [bind].
    rewrite (div_by_positive _ _ (size_pos_of_lookup corpus page
               (proj1 (key_of_map_to_list corpus page) Hpage))).
    cbn [bind]. rewrite (iterative_sum_ignores_page corpus ranks page ""), Hs. cbn [bind].
    unfold g. cbn [fst snd]. destruct change; [reflexivity|].
    apply key_in_dom in Hpage. rewrite <- same_pages in Hpage.
    destruct (proj1 (elem_of_dom _ _) Hpage) as [old Hold].
    unfold item, value. rewrite Hold. reflexivity. }
  destruct H as [Hrun _].
  assert (Hfst : forall l state,
            fst (foldl g state l) = foldl (fun m k => <[k := new]> m) (fst state) l).
  { induction l as [|k l IH]; intros state; [reflexivity|].
    cbn [foldl]. rewrite IH. reflexivity. }
  exists (fst (foldl g (ranks, false) (keys corpus))),
         (snd (foldl g (ranks, false) (keys corpus))).
  split; [rewrite Hrun; destruct (foldl g (ranks, false) (keys corpus)); reflexivity|].
  rewrite Hfst. cbn [fst]. split.
  - apply set_eq. intros k. rewrite elem_of_dom, foldl_insert_lookup.
    destruct (decide (k ∈ keys corpus)) as [Hin|Hnin].
    + split; [intros _; apply key_in_dom, Hin | eauto].
    + rewrite <- elem_of_dom, same_pages. reflexivity.
  - intros p Hp. unfold value. rewrite foldl_insert_lookup.
    rewrite (decide_True _ _ (proj2 (key_in_dom corpus p) Hp)).
    cbn. unfold new. rewrite Hshare. reflexivity.
Qed.
End UpdatePass.

(** C3 (defect of the code).  The claim: one update sets new_rank(p) to
    (1 - d) / N + d * (sum over the pages q that link to p of
    rank(q) / |L(q)|), a dangling page giving rank(q) / N to every page,
    with no division by zero.  In the code [iterative_sum] adds
    rank(q) / |L(q)| for every page q: on two pages linking to each other,
    from ranks 1/2 and 1/2, page 1 gets 0.075 + 0.85 * (0.5 + 0.5) = 0.925
    where the claimed value is 0.5; with a dangling page the pass raises
    ZeroDivisionError where the claimed value is 0.2875. *)
Theorem update_pass_counts_every_page :
  match rank_after two_pages DAMPING half_half "1.html" with
  | inr r => r == 0.925
  | inl _ => False
  end /\
  new_rank two_pages DAMPING half_half "1.html" == 0.5 /\
  update_pass dangling DAMPING half_half = inl ZeroDivisionError /\
  new_rank dangling DAMPING half_half "1.html" == 0.2875.
Proof.
  split; [vm_compute; reflexivity|].
  split; [vm_compute; reflexivity|].
  split; vm_compute; reflexivity.
Qed.

(** C4 (defect of the code).  The claim: [sample_pagerank] returns, for
    each page, the fraction of the n sampled visits that landed on it.
    The code averages the transition distributions of the pages it
    visits: with n = 2, first page 1 and then page 2, it returns 0.075
    for page 1, the probability of going from page 1 to page 1, where
    the fraction of visits is 1/2; with n = 1 it returns 0 for the one
    page visited. *)
Theorem sample_pagerank_not_visit_fraction :
  choice one_then_two (keys two_pages) = "1.html" /\
  match sample_pagerank one_then_two two_pages DAMPING 2 with
  | inr distribution =>
      match distribution !! "1.html" with
      | Some r => r == 0.075 /\ ~ r == visit_fraction ["1.html"; "2.html"] "1.html"
      | None => False
      end
  | inl _ => False
  end /\
  visit_fraction ["1.html"; "2.html"] "1.html" == 0.5 /\
  match sample_pagerank one_then_two two_pages DAMPING 1 with
  | inr distribution =>
      match distribution !! "1.html" with
      | Some r => r == 0 /\ ~ r == visit_fraction ["1.html"] "1.html"
      | None => False
      end
  | inl _ => False
  end.
Proof.
  split; [vm_compute; reflexivity|].
  split; [vm_compute; split; [reflexivity | discriminate]|].
  split; [vm_compute; reflexivity|].
  vm_compute; split; [reflexivity | discriminate].
Qed.

(** C5 (defect of the code).  The claim: the ranks sum to 1 (within
    10^-6) after every pass of the iterative estimator and in the result
    of the sampling estimator.  On two pages linking to each other the
    first pass of [iterate_pagerank] leaves 0.925 on each page, a sum of
    1.85; [sample_pagerank] with n = 1 returns 0 for every page. *)
Theorem rank_sum_not_one :
  match first_pass two_pages DAMPING with
  | inr ranks => rank_sum ranks == 1.85 /\ ~ Qabs (rank_sum ranks - 1) <= 0.000001
  | inl _ => False
  end /\
  match sample_pagerank one_then_two two_pages DAMPING 1 with
  | inr distribution =>
      rank_sum distribution == 0 /\ ~ Qabs (rank_sum distribution - 1) <= 0.000001
  | inl _ => False
  end.
Proof.
  split; vm_compute; (split; [reflexivity | intros H; apply H; reflexivity]).
Qed.

End PageRankFacts.

(** ** More of pagerank.py: crawl, transition_model, sample_pagerank,
    iterate_pagerank *)

Module PageRankCoverage.
Import PageRank Dict PageRankFacts.
Local Open Scope Q_scope.

(** *** crawl *)

Section Crawl.
Variable directory : list (string * list string).

Let first_step (pages : gmap string (gset string)) (file : string * list string)
    : gmap string (gset string) :=
  let '(filename, links) := file in
  if negb (ends_with ".html" filename) then pages
  else <[filename := list_to_set links ∖ {[filename]}]> pages.

(** What the first loop has stored for a page: the links of one of the
    files of that name, without the page itself. *)
Let stored (k : string) (page_links : gset string) : Prop :=
  ends_with ".html" k = true /\
  exists links, (k, links) ∈ directory /\ page_links = list_to_set links ∖ {[k]}.

Lemma first_loop_entries (files : list (string * list string))
    (pages : gmap string (gset string)) :
  (forall file, file ∈ files -> file ∈ directory) ->
  (forall k page_links, pages !! k = Some page_links -> stored k page_links) ->
  forall k page_links,
    foldl first_step pages files !! k = Some page_links -> stored k page_links.
Proof.
  revert pages. induction files as [|[filename ls] files IH]; intros pages Hsub Hinv;
    cbn [foldl]; [exact Hinv|].
  apply IH; [intros file Hfile; apply Hsub, list_elem_of_further, Hfile|].
  unfold first_step.
  destruct (ends_with ".html" filename) eqn:E; cbn [negb]; [|exact Hinv].
  intros k page_links Hk. destruct (decide (k = filename)) as [->|Hne].
  - rewrite lookup_insert_eq in Hk. injection Hk as <-.
    split; [exact E|]. exists ls. split; [|reflexivity].
    apply Hsub, list_elem_of_here.
  - rewrite lookup_insert_ne in Hk by congruence. exact (Hinv k page_links Hk).
Qed.

Lemma first_loop_dom (files : list (string * list string))
    (pages : gmap string (gset string)) (k : string) :
  k ∈ dom (foldl first_step pages files)
  <-> k ∈ dom pages \/ (ends_with ".html" k = true /\ k ∈ files.*1).
Proof.
  revert pages. induction files as [|[filename ls] files IH]; intros pages; cbn [foldl].
  - split; [auto|]. intros [H|[_ H]]; [exact H|]. inversion H.
  - rewrite IH. change (((filename, ls) :: files).*1) with (filename :: files.*1).
    unfold first_step. rewrite elem_of_cons.
    destruct (ends_with ".html" filename) eqn:E; cbn [negb].
    + rewrite dom_insert, elem_of_union, elem_of_singleton.
      split.
      * intros [[->|H]|[H1 H2]]; auto.
      * intros [H|[H1 [->|H2]]]; auto.
    + split.
      * intros [H|[H1 H2]]; auto.
      * intros [H|[H1 [->|H2]]]; auto. congruence.
Qed.

Lemma second_loop_fixed (D : gset string) (files : list string)
    (pages : gmap string (gset string)) :
  dom pages = D ->
  foldl (fun pages filename =>
           alter (fun page_links => filter (fun link => link ∈ dom pages) page_links)
                 filename pages)
        pages files
  = foldl (fun pages filename =>
             alter (fun page_links => filter (fun link => link ∈ D) page_links)
                   filename pages)
          pages files.
Proof.
  revert pages. induction files as [|filename files IH]; intros pages Hdom;
    cbn [foldl]; [reflexivity|].
  rewrite Hdom. apply IH. rewrite dom_alter_L. exact Hdom.
Qed.

(** The entry of a page in the corpus: its links of the first loop that
    are pages too. *)
Lemma crawl_lookup (k : string) :
  crawl directory !! k
  = (fun page_links => filter (fun link => link ∈ dom (foldl first_step ∅ directory))
                              page_links)
    <$> foldl first_step ∅ directory !! k.
Proof.
  unfold crawl. fold first_step.
  rewrite (second_loop_fixed (dom (foldl first_step ∅ directory))) by reflexivity.
  unfold keys.
  apply (foreach_key_lookup
           (fun _ page_links =>
              filter (fun link => link ∈ dom (foldl first_step ∅ directory)) page_links)).
Qed.

Lemma crawl_dom : dom (crawl directory) = dom (foldl first_step ∅ directory).
Proof.
  apply set_eq. intros k. rewrite !elem_of_dom, crawl_lookup, fmap_is_Some. reflexivity.
Qed.

Lemma crawl_pages (page : string) :
  page ∈ dom (crawl directory)
  <-> ends_with ".html" page = true /\ page ∈ directory.*1.
Proof.
  rewrite crawl_dom, first_loop_dom, dom_empty. split; [|auto].
  intros [H|H]; [|exact H]. exfalso. exact (not_elem_of_empty _ H).
Qed.

Lemma crawl_links (page : string) (page_links : gset string) :
  crawl directory !! page = Some page_links ->
  exists links,
    (page, links) ∈ directory /\
    forall link, link ∈ page_links
                 <-> link ∈ links /\ link <> page /\ link ∈ dom (crawl directory).
Proof.
  intros Hpage. rewrite crawl_lookup in Hpage.
  destruct (foldl first_step ∅ directory !! page) as [ls|] eqn:Hls;
    [|discriminate Hpage].
  injection Hpage as <-.
  destruct (first_loop_entries directory ∅) with (k := page) (page_links := ls)
    as (_ & links & Hfile & ->);
    [auto | intros k X Hk; rewrite lookup_empty in Hk; discriminate Hk | exact Hls |].
  exists links. split; [exact Hfile|]. intros link.
  rewrite elem_of_filter, crawl_dom, elem_of_difference, elem_of_list_to_set,
    elem_of_singleton.
  tauto.
Qed.

Lemma crawl_closed : closed (crawl directory).
Proof.
  intros page page_links Hpage link Hlink.
  destruct (crawl_links page page_links Hpage) as (links & _ & Hlinks).
  apply Hlinks in Hlink. tauto.
Qed.

(** X16.  The corpus [crawl] builds: its pages are the files of the
    directory whose name ends in ".html"; the links of a page are the
    links found in its file that lead to another page of the corpus, so
    that no page links to itself and every link stays in the corpus. *)
Theorem crawl_corpus :
  (forall page, page ∈ dom (crawl directory)
                <-> ends_with ".html" page = true /\ page ∈ directory.*1) /\
  (forall page page_links, crawl directory !! page = Some page_links ->
     exists links,
       (page, links) ∈ directory /\
       forall link, link ∈ page_links
                    <-> link ∈ links /\ link <> page /\ link ∈ dom (crawl directory)) /\
  closed (crawl directory).
Proof.
  split; [exact crawl_pages|]. split; [exact crawl_links | exact crawl_closed].
Qed.
End Crawl.

(** *** transition_model *)

Lemma Qnat_nonneg (n : nat) : 0 <= Qnat n.
Proof. unfold Qnat, Qle. cbn. lia. Qed.

Lemma Qdiv_nonneg (x y : Q) : 0 <= x -> 0 <= y -> 0 <= x / y.
Proof.
  intros Hx Hy. unfold Qdiv. apply Qmult_le_0_compat; [exact Hx|].
  apply Qinv_le_0_compat, Hy.
Qed.

Lemma transition_probability_nonneg (corpus : gmap string (gset string))
    (page_links : gset string) (d : Q) (k : string) :
  0 <= d <= 1 -> 0 <= transition_probability corpus page_links d k.
Proof.
  intros [Hd0 Hd1]. unfold transition_probability.
  destruct (size page_links =? 0)%nat.
  - apply Qdiv_nonneg; [lra | apply Qnat_nonneg].
  - assert (H1 : 0 <= (1 - d) / Qnat (size corpus))
      by (apply Qdiv_nonneg; [lra | apply Qnat_nonneg]).
    destruct (decide (k ∈ page_links)); [|lra].
    assert (H2 : 0 <= d / Qnat (size page_links))
      by (apply Qdiv_nonneg; [lra | apply Qnat_nonneg]).
    lra.
Qed.

(** A vector that has no entry outside the corpus and non-negative
    entries inside has non-negative values everywhere. *)
Lemma value_nonneg_everywhere (corpus : gmap string (gset string))
    (m : gmap string Q) :
  dom m = dom corpus ->
  (forall k, k ∈ dom corpus -> 0 <= value m k) -> forall k, 0 <= value m k.
Proof.
  intros Hdom Hin k. destruct (decide (k ∈ dom corpus)) as [Hk|Hk]; [exact (Hin k Hk)|].
  rewrite <- Hdom in Hk. apply not_elem_of_dom in Hk. unfold value. rewrite Hk.
  cbn. lra.
Qed.

(** X17.  From a page of a corpus whose links stay in the corpus,
    [transition_model] returns a probability distribution over the pages
    of the corpus: (1 - d) / N for every page plus d / |L| for the pages
    the current page links to, 1 / N for every page when the current page
    has no links; the values are not negative (for 0 <= d <= 1) and sum
    to 1. *)
Theorem transition_model_distribution (corpus : gmap string (gset string))
    (page : string) (page_links : gset string) (d : Q) :
  closed corpus -> corpus !! page = Some page_links -> 0 <= d <= 1 ->
  exists distribution,
    transition_model corpus page d = inr distribution /\
    dom distribution = dom corpus /\
    (forall k, k ∈ dom corpus ->
       value distribution k
       == (if (size page_links =? 0)%nat then 1 / Qnat (size corpus)
           else (1 - d) / Qnat (size corpus)
                + (if decide (k ∈ page_links) then d / Qnat (size page_links) else 0)) /\
       0 <= value distribution k) /\
    rank_sum distribution == 1.
Proof.
  intros Hclosed Hpage Hd.
  destruct (transition_model_values corpus page d page_links Hclosed Hpage)
    as (T & Hrun & Hdom & Hval).
  destruct (transition_model_total corpus page d page_links Hclosed Hpage)
    as (T' & Hrun' & _ & Hsum).
  assert (T' = T) as -> by congruence.
  exists T. split; [exact Hrun|]. split; [exact Hdom|]. split; [|exact Hsum].
  intros k Hk. split; [exact (Hval k Hk)|].
  rewrite (Hval k Hk). apply transition_probability_nonneg, Hd.
Qed.

Lemma closed_two_pages : closed two_pages.
Proof.
  intros page page_links Hpage. unfold two_pages in *.
  rewrite !dom_insert_L.
  apply lookup_insert_Some in Hpage as [[_ <-]|[_ Hpage]]; [set_solver|].
  apply lookup_insert_Some in Hpage as [[_ <-]|[_ Hpage]]; [set_solver|].
  rewrite lookup_empty in Hpage. discriminate Hpage.
Qed.

Lemma transition_model_distribution_witness :
  closed two_pages /\ two_pages !! "1.html" = Some {[ "2.html" ]} /\
  0 <= DAMPING <= 1 /\
  exists distribution,
    transition_model two_pages "1.html" DAMPING = inr distribution /\
    dom distribution = dom two_pages /\
    (forall k, k ∈ dom two_pages ->
       value distribution k
       == (if (size ({[ "2.html" ]} : gset string) =? 0)%nat
           then 1 / Qnat (size two_pages)
           else (1 - DAMPING) / Qnat (size two_pages)
                + (if decide (k ∈ ({[ "2.html" ]} : gset string))
                   then DAMPING / Qnat (size ({[ "2.html" ]} : gset string)) else 0)) /\
       0 <= value distribution k) /\
    rank_sum distribution == 1.
Proof.
  assert (Hd : 0 <= DAMPING <= 1) by (unfold DAMPING; split; lra).
  split; [exact closed_two_pages|]. split; [reflexivity|]. split; [exact Hd|].
  exact (transition_model_distribution two_pages "1.html" {[ "2.html" ]} DAMPING
           closed_two_pages eq_refl Hd).
Defined.

(** The second loop of [transition_model] stops with KeyError at a link
    that has no entry. *)
Lemma second_loop_KeyError (d : Q) (links : nat) (bad : string)
    (page_links : list string) (distribution : gmap string Q) :
  (0 < links)%nat -> distribution !! bad = None -> bad ∈ page_links ->
  foldl (fun acc link =>
           let! distribution := acc in
           let! old := item distribution link in
           let! share := div d (Qnat links) in
           inr (<[link := old + share]> distribution))
        (inr distribution) page_links
  = inl KeyError.
Proof.
  intros Hlinks.
  set (step := fun (acc : exn + gmap string Q) (link : string) =>
                 let! distribution := acc in
                 let! old := item distribution link in
                 let! share := div d (Qnat links) in
                 inr (<[link := old + share]> distribution)).
  assert (Hstep : forall m link,
            step (inr m) link
            = match m !! link with
              | Some old => inr (<[link := old + d / Qnat links]> m)
              | None => inl KeyError
              end).
  { intros m link. unfold step, item. cbn [bind].
    destruct (m !! link); cbn [bind]; [|reflexivity].
    rewrite (div_by_positive _ _ Hlinks). reflexivity. }
  revert distribution.
  induction page_links as [|link page_links IH]; intros distribution Hbad Hin;
    [inversion Hin|].
  cbn [foldl]. rewrite Hstep.
  destruct (distribution !! link) as [old|] eqn:Hold.
  - assert (Hne : link <> bad) by congruence.
    apply IH.
    + rewrite lookup_insert_ne by exact Hne. exact Hbad.
    + apply elem_of_cons in Hin as [->|Hin]; [congruence | exact Hin].
  - apply foldl_raised. reflexivity.
Qed.

(** X18.  [transition_model] raises KeyError when the current page is
    not a page of the corpus, and when the current page has a link that
    leads out of the corpus. *)
Theorem transition_model_KeyError (corpus : gmap string (gset string))
    (page : string) (d : Q) :
  corpus !! page = None \/
  (exists page_links link,
     corpus !! page = Some page_links /\ link ∈ page_links /\ link ∉ dom corpus) ->
  transition_model corpus page d = inl KeyError.
Proof.
  intros [Hpage|(page_links & bad & Hpage & Hbad & Hout)];
    unfold transition_model, item at 1; rewrite Hpage; cbn [bind]; [reflexivity|].
  assert (Hsize : (0 < size corpus)%nat) by (eapply size_pos_of_lookup; eauto).
  assert (Hlinks : (0 < size page_links)%nat).
  { destruct (decide (size page_links = 0)%nat) as [Hz|Hnz]; [|lia].
    apply size_empty_iff in Hz. exfalso. set_solver. }
  destruct (size page_links =? 0)%nat eqn:E; [apply Nat.eqb_eq in E; lia|].
  cbn [negb].
  rewrite (constant_loop _ (1 - d) ((1 - d) / Qnat (size corpus)) _ Hsize eq_refl).
  cbn [bind]. apply (second_loop_KeyError d (size page_links) bad); [exact Hlinks | |].
  - rewrite foldl_insert_lookup, lookup_empty.
    rewrite decide_False; [reflexivity|]. rewrite key_in_dom. exact Hout.
  - apply elem_of_elements, Hbad.
Qed.

Lemma transition_model_KeyError_witness :
  (broken !! "1.html" = None \/
   exists page_links link,
     broken !! "1.html" = Some page_links /\ link ∈ page_links /\ link ∉ dom broken) /\
  transition_model broken "1.html" DAMPING = inl KeyError.
Proof.
  assert (H : broken !! "1.html" = None \/
              exists page_links link,
                broken !! "1.html" = Some page_links /\ link ∈ page_links
                /\ link ∉ dom broken).
  { right. exists {[ "3.html" ]}, "3.html". split; [reflexivity|].
    split; [set_solver|]. unfold broken. rewrite !dom_insert_L. set_solver. }
  split; [exact H|]. exact (transition_model_KeyError broken "1.html" DAMPING H).
Defined.

(** *** sample_pagerank *)

Lemma sum_over_bounds (pages : list string) (f : string -> Q) (k : string) :
  (forall x, 0 <= f x) -> k ∈ pages -> f k <= sum_over pages f.
Proof.
  intros Hf. unfold sum_over.
  assert (Hpos : forall l, 0 <= total (map f l)).
  { induction l as [|x l IH]; cbn [map total foldr]; [lra|].
    fold (total (map f l)). pose proof (Hf x). lra. }
  induction pages as [|x pages IH]; intros Hk; [inversion Hk|].
  cbn [map total foldr]. fold (total (map f pages)).
  apply elem_of_cons in Hk as [->|Hk].
  - pose proof (Hpos pages). lra.
  - pose proof (Hf x). pose proof (IH Hk). lra.
Qed.

(** In a vector of non-negative numbers no entry exceeds the sum. *)
Lemma value_le_rank_sum (m : gmap string Q) (k : string) :
  (forall x, 0 <= value m x) -> value m k <= rank_sum m.
Proof.
  intros Hm. destruct (m !! k) as [v|] eqn:Hk.
  - rewrite (rank_sum_over m (keys m)).
    + apply sum_over_bounds; [exact Hm|]. apply key_in_dom, elem_of_dom. eauto.
    + apply NoDup_fst_map_to_list.
    + intros x. apply key_of_map_to_list.
  - rewrite (rank_sum_over m (keys m)).
    + unfold value at 1. rewrite Hk. cbn [default from_option id].
      unfold sum_over. generalize (keys m). intros l.
      induction l as [|x l IH]; cbn [map total foldr]; [lra|].
      fold (total (map (value m) l)). pose proof (Hm x). lra.
    + apply NoDup_fst_map_to_list.
    + intros x. apply key_of_map_to_list.
Qed.

(** The running average keeps the entries non-negative. *)
Lemma sample_loop_nonneg (random : Random) (corpus : gmap string (gset string))
    (d : Q) (len i : nat) (page : string) (distribution result : gmap string Q) :
  closed corpus -> draws_from_population random -> 0 <= d <= 1 ->
  (0 < i)%nat -> page ∈ dom corpus -> dom distribution = dom corpus ->
  (forall k, 0 <= value distribution k) ->
  sample_loop random corpus d (seq i len) page distribution = inr result ->
  forall k, 0 <= value result k.
Proof.
  intros Hclosed Hrandom Hd. revert i page distribution.
  induction len as [|len IH]; intros i page distribution Hi Hpage Hdom Hpos Hrun.
  - cbn in Hrun. injection Hrun as <-. exact Hpos.
  - cbn [seq sample_loop] in Hrun.
    destruct (proj1 (elem_of_dom _ _) Hpage) as [page_links Hlinks].
    destruct (transition_model_values corpus page d page_links Hclosed Hlinks)
      as (T & HT & HdomT & HvalT).
    rewrite HT in Hrun. cbn [bind] in Hrun.
    destruct (average_values i distribution T Hi (eq_trans HdomT (eq_sym Hdom)))
      as (avg & Havg & Hdomavg & Hvalavg).
    rewrite Havg in Hrun. cbn [bind] in Hrun.
    assert (Hdomavg' : dom avg = dom corpus) by (rewrite Hdomavg; exact Hdom).
    assert (HposT : forall k, 0 <= value T k).
    { apply (value_nonneg_everywhere corpus T HdomT). intros k Hk.
      rewrite (HvalT k Hk). apply transition_probability_nonneg, Hd. }
    refine (IH (S i) _ avg (Nat.lt_0_succ i) _ Hdomavg' _ Hrun).
    + rewrite <- Hdomavg'. apply key_in_dom. apply (proj2 Hrandom).
      apply (keys_nonempty avg page). rewrite Hdomavg'. exact Hpage.
    + apply (value_nonneg_everywhere corpus avg Hdomavg'). intros k Hk.
      rewrite <- Hdom in Hk. rewrite (Hvalavg k Hk).
      apply Qdiv_nonneg; [|apply Qnat_nonneg].
      pose proof (Qmult_le_0_compat _ _ (Qnat_nonneg (i - 1)) (Hpos k)).
      pose proof (HposT k). lra.
Qed.

Lemma sample_pagerank_nonneg (random : Random) (corpus : gmap string (gset string))
    (d : Q) (n : nat) (result : gmap string Q) :
  closed corpus -> draws_from_population random -> 0 <= d <= 1 ->
  sample_pagerank random corpus d n = inr result ->
  forall k, 0 <= value result k.
Proof.
  intros Hclosed Hrandom Hd. unfold sample_pagerank.
  destruct (size corpus =? 0)%nat eqn:E; [discriminate|]. apply Nat.eqb_neq in E.
  assert (Hkeys : keys corpus <> []).
  { intros Hnil. pose proof (length_keys corpus) as Hlen.
    rewrite Hnil in Hlen. cbn in Hlen. lia. }
  apply (sample_loop_nonneg random corpus d (n - 1) 1); try assumption.
  - lia.
  - apply key_in_dom, (proj1 Hrandom), Hkeys.
  - apply dom_fmap_L.
  - intros k. unfold value. rewrite lookup_fmap.
    destruct (corpus !! k); cbn; lra.
Qed.

(** X19.  From two samples on, over a corpus with a page whose links
    stay in the corpus, and with a random module that returns members of
    the populations it is given, [sample_pagerank] returns a value between
    0 and 1 for every page of the corpus, and the values sum to 1. *)
Theorem sample_pagerank_distribution (random : Random)
    (corpus : gmap string (gset string)) (d : Q) (n : nat) :
  closed corpus -> draws_from_population random -> 0 <= d <= 1 ->
  (0 < size corpus)%nat -> (2 <= n)%nat ->
  exists ranks,
    sample_pagerank random corpus d n = inr ranks /\
    dom ranks = dom corpus /\
    (forall page, 0 <= value ranks page <= 1) /\
    rank_sum ranks == 1.
Proof.
  intros Hclosed Hrandom Hd Hsize Hn.
  destruct (sample_pagerank_total random corpus d n Hclosed Hrandom Hsize Hn)
    as (ranks & Hrun & Hdom & Hsum).
  exists ranks. split; [exact Hrun|]. split; [exact Hdom|]. split; [|exact Hsum].
  pose proof (sample_pagerank_nonneg random corpus d n ranks Hclosed Hrandom Hd Hrun)
    as Hpos.
  intros page. split; [apply Hpos|]. rewrite <- Hsum. apply value_le_rank_sum, Hpos.
Qed.

Lemma always_first_draws : draws_from_population always_first.
Proof.
  split; [intros population Hne | intros i population weights Hne];
    (destruct population as [|x population]; [congruence | apply list_elem_of_here]).
Qed.

Lemma sample_pagerank_distribution_witness :
  closed two_pages /\ draws_from_population always_first /\ 0 <= DAMPING <= 1 /\
  (0 < size two_pages)%nat /\ (2 <= 3)%nat /\
  exists ranks,
    sample_pagerank always_first two_pages DAMPING 3 = inr ranks /\
    dom ranks = dom two_pages /\
    (forall page, 0 <= value ranks page <= 1) /\
    rank_sum ranks == 1.
Proof.
  assert (Hd : 0 <= DAMPING <= 1) by (unfold DAMPING; split; lra).
  assert (Hsize : (0 < size two_pages)%nat) by (vm_compute; lia).
  assert (Hn : (2 <= 3)%nat) by lia.
  split; [exact closed_two_pages|]. split; [exact always_first_draws|].
  split; [exact Hd|]. split; [exact Hsize|]. split; [exact Hn|].
  exact (sample_pagerank_distribution always_first two_pages DAMPING 3
           closed_two_pages always_first_draws Hd Hsize Hn).
Defined.

(** X20.  [sample_pagerank] on the corpus of [crawl]: when the directory
    holds a file whose name ends in ".html", the ranks of two samples or
    more are a distribution over the pages, whatever the files link to. *)
Theorem sample_pagerank_of_crawl (random : Random)
    (directory : list (string * list string)) (d : Q) (n : nat) :
  draws_from_population random -> 0 <= d <= 1 -> (2 <= n)%nat ->
  (exists filename, filename ∈ directory.*1 /\ ends_with ".html" filename = true) ->
  exists ranks,
    sample_pagerank random (crawl directory) d n = inr ranks /\
    (forall page, page ∈ dom ranks
                  <-> ends_with ".html" page = true /\ page ∈ directory.*1) /\
    (forall page, 0 <= value ranks page <= 1) /\
    rank_sum ranks == 1.
Proof.
  intros Hrandom Hd Hn (filename & Hfile & Hhtml).
  assert (Hpage : filename ∈ dom (crawl directory)) by (apply crawl_pages; auto).
  assert (Hsize : (0 < size (crawl directory))%nat).
  { apply (size_pos_of_lookup _ filename), elem_of_dom, Hpage. }
  destruct (sample_pagerank_total random (crawl directory) d n
              (crawl_closed directory) Hrandom Hsize Hn)
    as (ranks & Hrun & Hdom & Hsum).
  exists ranks. split; [exact Hrun|]. split; [|split; [|exact Hsum]].
  - intros page. rewrite Hdom. apply crawl_pages.
  - pose proof (sample_pagerank_nonneg random (crawl directory) d n ranks
                  (crawl_closed directory) Hrandom Hd Hrun) as Hpos.
    intros page. split; [apply Hpos|]. rewrite <- Hsum. apply value_le_rank_sum, Hpos.
Qed.

Lemma sample_pagerank_of_crawl_witness :
  let directory := [("1.html", ["2.html"; "1.html"]); ("notes.txt", ["1.html"]);
                    ("2.html", ["3.html"])] in
  draws_from_population always_first /\ 0 <= DAMPING <= 1 /\ (2 <= 3)%nat /\
  (exists filename, filename ∈ directory.*1 /\ ends_with ".html" filename = true) /\
  exists ranks,
    sample_pagerank always_first (crawl directory) DAMPING 3 = inr ranks /\
    (forall page, page ∈ dom ranks
                  <-> ends_with ".html" page = true /\ page ∈ directory.*1) /\
    (forall page, 0 <= value ranks page <= 1) /\
    rank_sum ranks == 1.
Proof.
  intros directory.
  assert (Hd : 0 <= DAMPING <= 1) by (unfold DAMPING; split; lra).
  assert (Hn : (2 <= 3)%nat) by lia.
  assert (Hfile : exists filename,
            filename ∈ directory.*1 /\ ends_with ".html" filename = true).
  { exists "1.html". split; [apply list_elem_of_here | reflexivity]. }
  split; [exact always_first_draws|]. split; [exact Hd|]. split; [exact Hn|].
  split; [exact Hfile|].
  exact (sample_pagerank_of_crawl always_first directory DAMPING 3
           always_first_draws Hd Hn Hfile).
Defined.

(** *** The empty corpus *)

(** X21.  On a corpus without pages [sample_pagerank] raises IndexError
    (the choice of the first page), [transition_model] raises KeyError for
    every page, and [iterate_pagerank] returns the empty dictionary after
    one pass. *)
Theorem empty_corpus (random : Random) (page : string) (d : Q) (n fuel : nat) :
  sample_pagerank random ∅ d n = inl IndexError /\
  transition_model ∅ page d = inl KeyError /\
  iterate_pagerank (S fuel) ∅ d = Some (inr ∅).
Proof.
  split; [|split].
  - unfold sample_pagerank. rewrite map_size_empty. reflexivity.
  - unfold transition_model, item. rewrite lookup_empty. reflexivity.
  - unfold iterate_pagerank, initial_ranks, keys. rewrite map_to_list_empty.
    cbn [fmap list_fmap foldl iterate_loop]. unfold update_pass, keys.
    rewrite map_to_list_empty. reflexivity.
Qed.

(** *** iterate_pagerank *)

(** The ranks before the first pass. *)
Lemma initial_ranks_returns (corpus : gmap string (gset string)) :
  exists ranks, initial_ranks corpus = inr ranks /\ dom ranks = dom corpus.
Proof.
  destruct (decide (size corpus = 0)%nat) as [Hz|Hnz].
  - apply map_size_empty_iff in Hz. subst corpus. exists ∅.
    unfold initial_ranks, keys. rewrite map_to_list_empty, !dom_empty_L.
    split; reflexivity.
  - unfold initial_ranks.
    rewrite (constant_loop _ 1 (1 / Qnat (size corpus)) (size corpus)) by (lia || reflexivity).
    eexists. split; [reflexivity|].
    apply set_eq. intros k. rewrite elem_of_dom, foldl_insert_lookup, <- key_in_dom.
    destruct (decide (k ∈ keys corpus)) as [Hin|Hnin].
    + split; [intros _; exact Hin | eauto].
    + rewrite lookup_empty. split; [intros [? ?]; discriminate | contradiction].
Qed.

(** X22.  On a corpus with a page that has no links, [iterate_pagerank]
    raises ZeroDivisionError in its first pass. *)
Theorem iterate_pagerank_dangling (corpus : gmap string (gset string))
    (d : Q) (q : string) (fuel : nat) :
  corpus !! q = Some ∅ ->
  iterate_pagerank (S fuel) corpus d = Some (inl ZeroDivisionError).
Proof.
  intros Hq. unfold iterate_pagerank.
  destruct (initial_ranks_returns corpus) as (ranks & -> & Hdom).
  cbn [iterate_loop]. rewrite (update_pass_dangling corpus d ranks q Hdom Hq).
  reflexivity.
Qed.

Lemma iterate_pagerank_dangling_witness :
  dangling !! "2.html" = Some ∅ /\
  iterate_pagerank 1 dangling DAMPING = Some (inl ZeroDivisionError).
Proof.
  split; [reflexivity|].
  exact (iterate_pagerank_dangling dangling DAMPING "2.html" 0 eq_refl).
Defined.

(** The passes of the loop, on a corpus without dangling page: no pass
    raises, and every pass leaves the same rank on every page. *)
Lemma iterate_loop_uniform (corpus : gmap string (gset string)) (d : Q)
    (fuel : nat) (ranks : gmap string Q) :
  no_dangling corpus -> dom ranks = dom corpus ->
  iterate_loop fuel corpus d ranks = None \/
  exists ranks',
    iterate_loop fuel corpus d ranks = Some (inr ranks') /\
    dom ranks' = dom corpus /\
    forall p q, p ∈ dom corpus -> q ∈ dom corpus -> value ranks' p == value ranks' q.
Proof.
  intros Hlinked. revert ranks.
  induction fuel as [|fuel IH]; intros ranks Hdom; [left; reflexivity|].
  cbn [iterate_loop].
  destruct (update_pass_values corpus d ranks Hdom Hlinked)
    as (ranks' & change & -> & Hdom' & Hval).
  destruct change; [exact (IH ranks' Hdom')|].
  right. exists ranks'. split; [reflexivity|]. split; [exact Hdom'|].
  intros p q Hp Hq. rewrite (Hval p Hp), (Hval q Hq). reflexivity.
Qed.

(** X23.  On a corpus where every page has a link, [iterate_pagerank]
    raises nothing, and the ranks it returns when the loop ends are the
    same for every page, whatever the links are. *)
Theorem iterate_pagerank_uniform (corpus : gmap string (gset string))
    (d : Q) (fuel : nat) :
  no_dangling corpus ->
  iterate_pagerank fuel corpus d = None \/
  exists ranks,
    iterate_pagerank fuel corpus d = Some (inr ranks) /\
    dom ranks = dom corpus /\
    forall p q, p ∈ dom corpus -> q ∈ dom corpus -> value ranks p == value ranks q.
Proof.
  intros Hlinked. unfold iterate_pagerank.
  destruct (initial_ranks_returns corpus) as (ranks & -> & Hdom).
  exact (iterate_loop_uniform corpus d fuel ranks Hlinked Hdom).
Qed.

Lemma no_dangling_two_pages : no_dangling two_pages.
Proof.
  intros q page_links Hq. unfold two_pages in Hq.
  apply lookup_insert_Some in Hq as [[_ <-]|[_ Hq]]; [rewrite size_singleton; lia|].
  apply lookup_insert_Some in Hq as [[_ <-]|[_ Hq]]; [rewrite size_singleton; lia|].
  rewrite lookup_empty in Hq. discriminate Hq.
Qed.

Lemma iterate_pagerank_uniform_witness :
  no_dangling two_pages /\
  (iterate_pagerank 1 two_pages 0.0001 = None \/
   exists ranks,
     iterate_pagerank 1 two_pages 0.0001 = Some (inr ranks) /\
     dom ranks = dom two_pages /\
     forall p q, p ∈ dom two_pages -> q ∈ dom two_pages ->
                 value ranks p == value ranks q).
Proof.
  split; [exact no_dangling_two_pages|].
  exact (iterate_pagerank_uniform two_pages 0.0001 1 no_dangling_two_pages).
Defined.

(** The loop does end on some inputs: with a damping factor of 0.0001
    the first pass of the two-page corpus moves no rank by more than
    0.001. *)
Lemma iterate_pagerank_returns_example :
  exists ranks, iterate_pagerank 1 two_pages 0.0001 = Some (inr ranks).
Proof. vm_compute. eexists. reflexivity. Qed.

End PageRankCoverage.
